(** * DataAdapter: change detection for records arrays

    A shallow embedding of
    [packages/@ember/-internals/extension-support/lib/data_adapter.js]:
    the two watcher classes ([RecordsWatcher], [TypeWatcher]) and the
    coordinator ([watchModelTypes], [watchRecords], [observeModelType],
    [flushWatchers], [willDestroy]).

    Objects compared by identity in the source (records, records arrays,
    callbacks, closures) are numbered; JS [Map]s are association lists in
    insertion order, because [forEach] visits them in that order. *)

From Stdlib Require Import List Arith Bool Lia PeanoNat Sorted.
Import ListNotations.

Set Implicit Arguments.

(** ** Identities *)

Definition RecordId := nat.   (* a host record, compared by identity *)
Definition Coll := nat.       (* a live records array, compared by identity *)
Definition ModelName := nat.  (* a model name handed to [getRecords] *)
Definition Caller := nat.     (* the callbacks handed to one watch call *)

(** ** Tags and revisions *)

(** Modelled from the spec: the dependency-tracked cache is an external
    capability ([@glimmer/validator]: [tagFor], [consumeTag], [createCache],
    [getValue], [untrack]); the source only imports it. A tag stands for one
    tracked storage cell; the world keeps the revision at which each was last
    changed. [TagArr c] is [tagFor(records, '[]')] of the array [c] (its
    tracked [length] is folded into it), [TagProp r] a tracked field of the
    record [r]. *)
Inductive Tag : Type :=
| TagArr (c : Coll)
| TagProp (r : RecordId).

Definition Tag_eq_dec (a b : Tag) : {a = b} + {a <> b}.
Proof. decide equality; apply Nat.eq_dec. Defined.

Arguments Tag_eq_dec : simpl never.

(** The observed world: the global revision clock, the revision of every
    tag, and the contents of every records array. *)
Record World : Type := {
  clock : nat;
  revs  : Tag -> nat;
  store : Coll -> list RecordId
}.

(** Modelled from the spec: changing a tracked cell advances the clock and
    stamps the cell's tag with the new revision. *)
Definition dirtyTag (t : Tag) (w : World) : World :=
  {| clock := S (clock w);
     revs  := fun t' => if Tag_eq_dec t t' then S (clock w) else revs w t';
     store := store w |}.

Definition setStore (c : Coll) (l : list RecordId) (w : World) : World :=
  {| clock := clock w;
     revs  := revs w;
     store := fun c' => if Nat.eq_dec c c' then l else store w c' |}.

(** Modelled from the spec: a combined tag is the collection of the tags
    consumed by one evaluation; its value is the newest revision among them
    (0 for the constant tag of an evaluation that read nothing). *)
Definition valueForTag (w : World) (ts : list Tag) : nat :=
  fold_right (fun t m => Nat.max (revs w t) m) 0 ts.

Definition validateTag (w : World) (ts : list Tag) (snapshot : nat) : bool :=
  valueForTag w ts <=? snapshot.

(** ** The tracking frames *)

(** Modelled from the spec: the validator's current tracker and the stack of
    open frames. [None] is the null tracker of an untracked region: reads
    made there are registered nowhere. *)
Record Validator : Type := {
  CURRENT_TRACKER   : option (list Tag);
  OPEN_TRACK_FRAMES : list (option (list Tag))
}.

(** No computation is running: the state in which [revalidate()] is
    called. *)
Definition idle : Validator :=
  {| CURRENT_TRACKER := None; OPEN_TRACK_FRAMES := [] |}.

(** Modelled from the spec: a read registers with the current tracker, if
    there is one. *)
Definition consumeTags (ts : list Tag) (v : Validator) : Validator :=
  match CURRENT_TRACKER v with
  | Some cur => {| CURRENT_TRACKER := Some (cur ++ ts);
                   OPEN_TRACK_FRAMES := OPEN_TRACK_FRAMES v |}
  | None => v
  end.

Definition consumeTag (t : Tag) : Validator -> Validator := consumeTags [t].

(** Modelled from the spec: frames nest; opening one sets the current
    tracker aside, closing it brings the tracker back. *)
Definition pushFrame (fresh : option (list Tag)) (v : Validator) : Validator :=
  {| CURRENT_TRACKER := fresh;
     OPEN_TRACK_FRAMES := CURRENT_TRACKER v :: OPEN_TRACK_FRAMES v |}.

Definition popFrame (v : Validator) : Validator :=
  match OPEN_TRACK_FRAMES v with
  | f :: fs => {| CURRENT_TRACKER := f; OPEN_TRACK_FRAMES := fs |}
  | [] => {| CURRENT_TRACKER := None; OPEN_TRACK_FRAMES := [] |}
  end.

Definition beginTrackFrame : Validator -> Validator := pushFrame (Some []).

Definition endTrackFrame (v : Validator) : list Tag * Validator :=
  (match CURRENT_TRACKER v with Some ts => ts | None => [] end, popFrame v).

Definition beginUntrackFrame : Validator -> Validator := pushFrame None.

Definition endUntrackFrame : Validator -> Validator := popFrame.

(** Modelled from the spec: [untrack(callback)] runs the callback with no
    current tracker ("mark a read as untracked"). *)
Definition untrack {S : Type} (callback : S -> Validator -> S * Validator)
    (s : S) (v : Validator) : S * Validator :=
  let '(s', v') := callback s (beginUntrackFrame v) in
  (s', endUntrackFrame v').

(** ** Caches *)

(** Modelled from the spec: a memoized computation node. [TAG] is [None]
    until the first evaluation; afterwards it holds the tags read by the last
    evaluation and [SNAPSHOT] their value at its end. *)
Record Cache : Type := {
  TAG      : option (list Tag);
  SNAPSHOT : nat
}.

(** Modelled from the spec: "create a cache around a computation". Nothing
    runs yet. *)
Definition createCache : Cache := {| TAG := None; SNAPSHOT := 0 |}.

(** Modelled from the spec: the memoized result stands while no value read
    by the last evaluation has changed. *)
Definition isValid (w : World) (c : Cache) : bool :=
  match TAG c with
  | Some ts => validateTag w ts (SNAPSHOT c)
  | None => false
  end.

Definition deps (c : Cache) : list Tag :=
  match TAG c with Some ts => ts | None => [] end.

(** Modelled from the spec: "force evaluation, returning the memoized result
    unless a tracked dependency changed". The computation [fn] works on the
    variables it closes over, [S]; whether it runs or not, the node's tag is
    consumed by the enclosing frame. *)
Definition getValue {S : Type} (w : World)
    (fn : S -> Validator -> S * Validator)
    (cache : Cache) (s : S) (v : Validator) : Cache * S * Validator :=
  if isValid w cache
  then (cache, s, consumeTags (deps cache) v)
  else
    let '(s', v') := fn s (beginTrackFrame v) in
    let '(tag, v'') := endTrackFrame v' in
    ({| TAG := Some tag; SNAPSHOT := valueForTag w tag |}, s',
     consumeTags tag v'').

(** ** JS [Map] and [Set] keyed by identity *)

Section JSMap.
Variable V : Type.

Definition JSMap : Type := list (nat * V).

Fixpoint Map_get (k : nat) (m : JSMap) : option V :=
  match m with
  | [] => None
  | (k', x) :: m' => if k =? k' then Some x else Map_get k m'
  end.

(* [set] on a present key keeps the entry's place, on a new key appends *)
Fixpoint Map_set (k : nat) (x : V) (m : JSMap) : JSMap :=
  match m with
  | [] => [(k, x)]
  | (k', x') :: m' =>
      if k =? k' then (k, x) :: m' else (k', x') :: Map_set k x m'
  end.

Definition Map_delete (k : nat) (m : JSMap) : JSMap :=
  filter (fun e => negb (fst e =? k)) m.

Definition Map_size (m : JSMap) : nat := length m.

Definition Map_keys (m : JSMap) : list nat := map fst m.
End JSMap.

Definition Set_has (x : nat) (s : list nat) : bool := existsb (Nat.eqb x) s.

(** [iterate(arr, fn)]: both branches call [fn] on every element in order.
    Reading the elements of a tracked array consumes the tag of the array,
    which both watchers consume by hand as well: [TagArr] stands for both. *)
Definition iterate {S : Type} (arr : list RecordId) (fn : S -> RecordId -> S)
    (s : S) : S :=
  fold_left fn arr s.

(** ** Host hooks, payloads and callbacks *)

(** What a persistence library overrides. [getRecords] resolves a model name
    to its records array; [getModelTypes] is the list of detected model
    names; [wrap_reads r] are the tracked cells that the record hooks
    ([getRecordColumnValues], [getRecordKeywords], [getRecordFilterValues],
    [getRecordColor]) read when [wrapRecord] is applied to [r]. *)
Class Hooks : Type := {
  getRecords    : ModelName -> Coll;
  getModelTypes : list ModelName;
  wrap_reads    : RecordId -> list Tag
}.

(** What [wrapRecord] hands to the callbacks. Only [object] identifies the
    record; the values the record hooks supply beside it ([columnValues],
    [searchKeywords], [filterValues], [color]) are left out, the reads they
    make are not (see [wrap_reads]). *)
Record WrappedRecord : Type := { object : RecordId }.

(** What [wrapModelType] builds, without [columns] and [object], which come
    from the host's class of the model. *)
Record WrappedType : Type := { name : ModelName; count : nat }.

(** One invocation of a host callback, with the list it received. *)
Inductive Event : Type :=
| recordsAdded   (k : Caller) (l : list WrappedRecord)
| recordsUpdated (k : Caller) (l : list WrappedRecord)
| recordsRemoved (k : Caller) (l : list WrappedRecord)
| typesAdded     (k : Caller) (l : list WrappedType)
| typesUpdated   (k : Caller) (l : list WrappedType).

(** The release closures handed to watchers; [id] tells closures apart that
    were created by different calls. *)
Inductive ReleaseFn : Type :=
| releaseRecords (id : nat) (records : Coll)
| releaseType    (id : nat) (records : Coll).

(** ** RecordsWatcher *)

(** A per-record cache together with the [hasBeenAdded] flag its
    computation closes over. *)
Record RecordCache : Type := {
  hasBeenAdded : bool;
  cache        : Cache
}.

Record RecordsWatcher : Type := {
  rw_records       : Coll;
  rw_callbacks     : Caller;
  recordCaches     : JSMap RecordCache;
  recordArrayCache : Cache;
  rw_release       : ReleaseFn
}.

(** The variables of one run of the array computation: [seen] and the three
    lists [added], [updated], [removed]. *)
Record Diff : Type := {
  seen    : list RecordId;
  added   : list WrappedRecord;
  updated : list WrappedRecord;
  removed : list WrappedRecord
}.

Definition noDiff : Diff :=
  {| seen := []; added := []; updated := []; removed := [] |}.

Definition push_added (x : WrappedRecord) (d : Diff) : Diff :=
  {| seen := seen d; added := added d ++ [x];
     updated := updated d; removed := removed d |}.

Definition push_updated (x : WrappedRecord) (d : Diff) : Diff :=
  {| seen := seen d; added := added d;
     updated := updated d ++ [x]; removed := removed d |}.

Definition push_removed (x : WrappedRecord) (d : Diff) : Diff :=
  {| seen := seen d; added := added d;
     updated := updated d; removed := removed d ++ [x] |}.

Definition add_seen (r : RecordId) (d : Diff) : Diff :=
  {| seen := r :: seen d; added := added d;
     updated := updated d; removed := removed d |}.

Section Watchers.
Context {H : Hooks}.

Definition wrapRecord (record : RecordId) (v : Validator)
  : WrappedRecord * Validator :=
  ({| object := record |}, consumeTags (wrap_reads record) v).

(* lines 44-51 *)
Definition recordCache_fn (record : RecordId) (s : bool * Diff)
    (v : Validator) : (bool * Diff) * Validator :=
  let '(hasBeenAdded, d) := s in
  let '(wrapped, v') := wrapRecord record v in
  if negb hasBeenAdded
  then ((true, push_added wrapped d), v')
  else ((hasBeenAdded, push_updated wrapped d), v').

(* lines 38-59, the callback of [iterate] *)
Definition visit (w : World) (s : JSMap RecordCache * Diff * Validator)
    (record : RecordId) : JSMap RecordCache * Diff * Validator :=
  let '(caches, d, v) := s in
  let recordCache :=
    match Map_get record caches with
    | Some rc => rc
    | None => {| hasBeenAdded := false; cache := createCache |}
    end in
  let '(c', (flag, d'), v') :=
    getValue w (recordCache_fn record) (cache recordCache)
             (hasBeenAdded recordCache, d) v in
  (Map_set record {| hasBeenAdded := flag; cache := c' |} caches,
   add_seen record d', v').

(* lines 65-68, the callback of [recordCaches.forEach] *)
Definition sweep (s : JSMap RecordCache * Diff * Validator)
    (e : RecordId * RecordCache) : JSMap RecordCache * Diff * Validator :=
  let '(caches, d, v) := s in
  if negb (Set_has (fst e) (seen d))
  then
    let '(wrapped, v') := wrapRecord (fst e) v in
    (Map_delete (fst e) caches, push_removed wrapped d, v')
  else s.

(* lines 72-82 *)
Definition dispatch (k : Caller) (d : Diff) : list Event :=
  (if 0 <? length (added d) then [recordsAdded k (added d)] else [])
  ++ (if 0 <? length (updated d) then [recordsUpdated k (updated d)] else [])
  ++ (if 0 <? length (removed d) then [recordsRemoved k (removed d)] else []).

(** Lines 64-69, the callback handed to [untrack]. [Map.forEach] is live,
    but its callback only deletes the entry being visited, so every entry
    present when the loop starts is visited once: a fold over those
    entries. *)
Definition removalPass (s : JSMap RecordCache * Diff) (v : Validator)
  : (JSMap RecordCache * Diff) * Validator :=
  let '(caches, d, v') := fold_left sweep (fst s) (fst s, snd s, v) in
  ((caches, d), v').

(** Lines 29-70: the pass over the array, then the removal pass inside
    [untrack]. *)
Definition collect (w : World) (records : Coll)
    (caches : JSMap RecordCache) (v : Validator)
  : JSMap RecordCache * Diff * Validator :=
  let v1 := consumeTag (TagArr records) v in
  let '(caches1, d1, v2) :=
    iterate (store w records) (visit w) (caches, noDiff, v1) in
  let '((caches2, d2), v3) := untrack removalPass (caches1, d1) v2 in
  (caches2, d2, v3).

(** Lines 28-83, the computation of [recordArrayCache]. *)
Definition recordArrayCache_fn (w : World) (records : Coll) (k : Caller)
    (s : JSMap RecordCache * list Event) (v : Validator)
  : (JSMap RecordCache * list Event) * Validator :=
  let '(caches, out) := s in
  let '(caches2, d2, v3) := collect w records caches v in
  ((caches2, out ++ dispatch k d2), v3).

Definition new_RecordsWatcher (records : Coll) (k : Caller)
    (release : ReleaseFn) : RecordsWatcher :=
  {| rw_records := records; rw_callbacks := k; recordCaches := [];
     recordArrayCache := createCache; rw_release := release |}.

(** [revalidate()]: the watcher afterwards and the callbacks invoked. *)
Definition RecordsWatcher_revalidate (w : World) (rw : RecordsWatcher)
  : RecordsWatcher * list Event :=
  let '(c', (caches', out), _) :=
    getValue w (recordArrayCache_fn w (rw_records rw) (rw_callbacks rw))
             (recordArrayCache rw) (recordCaches rw, []) idle in
  ({| rw_records := rw_records rw; rw_callbacks := rw_callbacks rw;
      recordCaches := caches'; recordArrayCache := c';
      rw_release := rw_release rw |}, out).

(** ** TypeWatcher *)

Record TypeWatcher : Type := {
  tw_records      : Coll;
  tw_callbacks    : Caller;
  tw_modelName    : ModelName;
  hasBeenAccessed : bool;
  tw_cache        : Cache;
  tw_release      : ReleaseFn
}.

(* lines 458-470; [get(records, 'length')] is a tracked read *)
Definition wrapModelType (w : World) (modelName : ModelName) (v : Validator)
  : WrappedType * Validator :=
  let records := getRecords modelName in
  ({| name := modelName; count := length (store w records) |},
   consumeTag (TagArr records) v).

(* lines 412-414 *)
Definition onChange (w : World) (k : Caller) (modelName : ModelName)
    (out : list Event) (v : Validator) : list Event * Validator :=
  let '(wrapped, v') := wrapModelType w modelName v in
  (out ++ [typesUpdated k [wrapped]], v').

(* lines 95-108 *)
Definition typeCache_fn (w : World) (records : Coll) (k : Caller)
    (modelName : ModelName) (s : bool * list Event) (v : Validator)
  : (bool * list Event) * Validator :=
  let '(accessed, out) := s in
  let _ := iterate (store w records) (fun (u : unit) _ => u) tt in
  let v1 := consumeTag (TagArr records) v in
  if accessed
  then let '(out', v2) := onChange w k modelName out v1 in
       ((accessed, out'), v2)
  else ((true, out), v1).

Definition new_TypeWatcher (records : Coll) (k : Caller)
    (modelName : ModelName) (release : ReleaseFn) : TypeWatcher :=
  {| tw_records := records; tw_callbacks := k; tw_modelName := modelName;
     hasBeenAccessed := false; tw_cache := createCache;
     tw_release := release |}.

Definition TypeWatcher_revalidate (w : World) (tw : TypeWatcher)
  : TypeWatcher * list Event :=
  let '(c', (accessed, out), _) :=
    getValue w (typeCache_fn w (tw_records tw) (tw_callbacks tw)
                             (tw_modelName tw))
             (tw_cache tw) (hasBeenAccessed tw, []) idle in
  ({| tw_records := tw_records tw; tw_callbacks := tw_callbacks tw;
      tw_modelName := tw_modelName tw; hasBeenAccessed := accessed;
      tw_cache := c'; tw_release := tw_release tw |}, out).

End Watchers.

(** ** The host's mutations *)

(** Modelled from the spec: a records array is live and externally owned, and
    its "membership can change over time"; records are mutated in place. A
    change of membership dirties the array's tag, a change of a tracked field
    the field's tag. [removeObject] of an absent record changes nothing. *)
Inductive Mutation : Type :=
| pushObject   (c : Coll) (r : RecordId)
| removeObject (c : Coll) (r : RecordId)
| setProp      (r : RecordId).

Definition mutate (m : Mutation) (w : World) : World :=
  match m with
  | pushObject c r =>
      dirtyTag (TagArr c) (setStore c (store w c ++ [r]) w)
  | removeObject c r =>
      if Set_has r (store w c)
      then dirtyTag (TagArr c)
             (setStore c (filter (fun x => negb (x =? r)) (store w c)) w)
      else w
  | setProp r => dirtyTag (TagProp r) w
  end.

(** The world before anything was watched: every tag at the initial
    revision. *)
Definition initialWorld (contents : Coll -> list RecordId) : World :=
  {| clock := 1; revs := fun _ => 1; store := contents |}.

(** ** One watcher over time *)

Inductive Step : Type :=
| mutation (m : Mutation)
| revalidate.

Section OneWatcher.
Context {H : Hooks}.

Record Run : Type := {
  world   : World;
  watcher : RecordsWatcher;
  trace   : list Event
}.

Definition step (s : Run) (a : Step) : Run :=
  match a with
  | mutation m =>
      {| world := mutate m (world s); watcher := watcher s;
         trace := trace s |}
  | revalidate =>
      let '(rw, out) := RecordsWatcher_revalidate (world s) (watcher s) in
      {| world := world s; watcher := rw; trace := trace s ++ out |}
  end.

Definition start (contents : Coll -> list RecordId) (c : Coll) (k : Caller)
  : Run :=
  {| world := initialWorld contents;
     watcher := new_RecordsWatcher c k (releaseRecords 0 c);
     trace := [] |}.

Definition run (steps : list Step) (s : Run) : Run := fold_left step steps s.

(** The contents of the watched array at each revalidation of a run. *)
Fixpoint snapshots (c : Coll) (steps : list Step) (w : World)
  : list (list RecordId) :=
  match steps with
  | [] => []
  | mutation m :: rest => snapshots c rest (mutate m w)
  | revalidate :: rest => store w c :: snapshots c rest w
  end.
End OneWatcher.

(** ** The batch-completion signal *)

(** Modelled from the spec: the "batch-completion signal" the coordinator
    "subscribes/unsubscribes to" is [backburner] of [@ember/runloop], which the
    source only imports. The one callback ever handed over is [flushWatchers],
    so the listeners of ['end'] are counted: [on] registers once more; whether
    [off] withdraws every registration of the callback or a single one is the
    policy of the event source, and the model is stated for both. The spec
    does not say what [off] does with a callback that is not registered;
    Backburner's [off] throws a [TypeError] then, and so does the model:
    [backburner_off] is [None] when nothing is registered. *)
Inductive OffPolicy : Type := OffAll | OffOne.

Definition backburner_on (n : nat) : nat := S n.

Definition backburner_off (p : OffPolicy) (n : nat) : option nat :=
  match n with
  | 0 => None
  | S n' => Some (match p with
                  | OffAll => 0
                  | OffOne => n'
                  end)
  end.

(** ** The coordinator *)

(** The [release] closure built by [watchModelTypes] (lines 278-281): its own
    identity and the release functions it closes over. *)
Record TypesRelease : Type := {
  tr_id             : nat;
  tr_releaseMethods : list ReleaseFn
}.

(** [Array.prototype.forEach] on an array the callback may change: the bound
    is the length at the start, index [i] is read from the array as it is at
    that moment, and an index that is no longer there is skipped. *)
Definition Array_forEach {S X : Type} (current : S -> list X)
    (fn : S -> X -> S) (s : S) : S :=
  fold_left (fun s i => match nth_error (current s) i with
                        | Some x => fn s x
                        | None => s
                        end)
            (seq 0 (length (current s))) s.

Section Coordinator.
Context {H : Hooks}.
Variable policy : OffPolicy.

Record DataAdapter : Type := {
  releaseMethods  : list TypesRelease;
  recordsWatchers : JSMap RecordsWatcher;
  typeWatchers    : JSMap TypeWatcher;
  listeners       : nat;        (* registrations of [flushWatchers] on ['end'] *)
  nextId          : nat;        (* closures created so far *)
  calls           : list Event  (* callbacks invoked so far *)
}.

(* lines 163-169 *)
Definition init : DataAdapter :=
  {| releaseMethods := []; recordsWatchers := []; typeWatchers := [];
     listeners := 0; nextId := 0; calls := [] |}.

Definition set_listeners (n : nat) (a : DataAdapter) : DataAdapter :=
  {| releaseMethods := releaseMethods a; recordsWatchers := recordsWatchers a;
     typeWatchers := typeWatchers a; listeners := n; nextId := nextId a;
     calls := calls a |}.

Definition set_recordsWatchers (m : JSMap RecordsWatcher) (a : DataAdapter)
  : DataAdapter :=
  {| releaseMethods := releaseMethods a; recordsWatchers := m;
     typeWatchers := typeWatchers a; listeners := listeners a;
     nextId := nextId a; calls := calls a |}.

Definition set_typeWatchers (m : JSMap TypeWatcher) (a : DataAdapter)
  : DataAdapter :=
  {| releaseMethods := releaseMethods a; recordsWatchers := recordsWatchers a;
     typeWatchers := m; listeners := listeners a; nextId := nextId a;
     calls := calls a |}.

Definition set_releaseMethods (l : list TypesRelease) (a : DataAdapter)
  : DataAdapter :=
  {| releaseMethods := l; recordsWatchers := recordsWatchers a;
     typeWatchers := typeWatchers a; listeners := listeners a;
     nextId := nextId a; calls := calls a |}.

Definition invoke (out : list Event) (a : DataAdapter) : DataAdapter :=
  {| releaseMethods := releaseMethods a; recordsWatchers := recordsWatchers a;
     typeWatchers := typeWatchers a; listeners := listeners a;
     nextId := nextId a; calls := calls a ++ out |}.

Definition fresh_closure (a : DataAdapter) : DataAdapter :=
  {| releaseMethods := releaseMethods a; recordsWatchers := recordsWatchers a;
     typeWatchers := typeWatchers a; listeners := listeners a;
     nextId := S (nextId a); calls := calls a |}.

(** How a call ends: it returns, or an exception leaves it; either way the
    adapter is as the call had made it by then. *)
Inductive Completion : Type :=
| Normal (a : DataAdapter)
| Throw (a : DataAdapter).

Definition after (c : Completion) : DataAdapter :=
  match c with
  | Normal a | Throw a => a
  end.

Definition throws (c : Completion) : bool :=
  match c with
  | Normal _ => false
  | Throw _ => true
  end.

(** The next statement runs only if the one before has returned. *)
Definition andThen (c : Completion) (k : DataAdapter -> Completion)
  : Completion :=
  match c with
  | Normal a => k a
  | Throw a => Throw a
  end.

(** [backburner.off('end', this.flushWatchers)]. *)
Definition off (a : DataAdapter) : Completion :=
  match backburner_off policy (listeners a) with
  | Some n => Normal (set_listeners n a)
  | None => Throw a
  end.

(** A watcher's release function: the closures at lines 335-341 and
    425-431. They find the registry through the variables they close over,
    not through the watcher; an exception of [off] leaves the closure before
    its [delete]. *)
Definition try_release (f : ReleaseFn) (a : DataAdapter) : Completion :=
  match f with
  | releaseRecords _ records =>
      andThen (if Map_size (recordsWatchers a) =? 1 then off a else Normal a)
        (fun a1 =>
           Normal (set_recordsWatchers
                     (Map_delete records (recordsWatchers a1)) a1))
  | releaseType _ records =>
      andThen (if Map_size (typeWatchers a) =? 1 then off a else Normal a)
        (fun a1 =>
           Normal (set_typeWatchers
                     (Map_delete records (typeWatchers a1)) a1))
  end.

(** The adapter after a call of a release function, whether the call has
    returned or thrown. *)
Definition call_release (f : ReleaseFn) (a : DataAdapter) : DataAdapter :=
  after (try_release f a).

(** [forEach] over callbacks that may throw: the first exception ends the
    loop. *)
Definition forEach_call {X : Type} (fn : X -> DataAdapter -> Completion)
    (l : list X) (a : DataAdapter) : Completion :=
  fold_left (fun c x => andThen c (fn x)) l (Normal a).

(* lines 317-350 *)
Definition watchRecords (w : World) (modelName : ModelName) (k : Caller)
    (a : DataAdapter) : ReleaseFn * DataAdapter :=
  let records := getRecords modelName in
  match Map_get records (recordsWatchers a) with
  | Some recordsWatcher => (rw_release recordsWatcher, a)
  | None =>
      let a1 := if Map_size (recordsWatchers a) =? 0
                then set_listeners (backburner_on (listeners a)) a
                else a in
      let release := releaseRecords (nextId a1) records in
      let '(recordsWatcher, out) :=
        RecordsWatcher_revalidate w (new_RecordsWatcher records k release) in
      (release,
       invoke out
         (set_recordsWatchers
            (Map_set records recordsWatcher (recordsWatchers a1))
            (fresh_closure a1)))
  end.

(* lines 408-439 *)
Definition observeModelType (w : World) (modelName : ModelName) (k : Caller)
    (a : DataAdapter) : ReleaseFn * DataAdapter :=
  let records := getRecords modelName in
  match Map_get records (typeWatchers a) with
  | Some typeWatcher => (tw_release typeWatcher, a)
  | None =>
      let a1 := if Map_size (typeWatchers a) =? 0
                then set_listeners (backburner_on (listeners a)) a
                else a in
      let release := releaseType (nextId a1) records in
      let '(typeWatcher, out) :=
        TypeWatcher_revalidate w (new_TypeWatcher records k modelName release) in
      (release,
       invoke out
         (set_typeWatchers
            (Map_set records typeWatcher (typeWatchers a1))
            (fresh_closure a1)))
  end.

(** Lines 264-284. Modelled from the spec: [pushObject] appends to the
    pending-release list (the Ember array class is not among the sources). *)
Definition watchModelTypes (w : World) (k : Caller) (a : DataAdapter)
  : TypesRelease * DataAdapter :=
  let '(typesToSend, methods, a1) :=
    fold_left
      (fun (acc : list WrappedType * list ReleaseFn * DataAdapter) type =>
         let '(sent, methods, a) := acc in
         let '(wrapped, _) := wrapModelType w type idle in
         let '(f, a') := observeModelType w type k a in
         (sent ++ [wrapped], methods ++ [f], a'))
      getModelTypes ([], [], a) in
  let a2 := invoke [typesAdded k typesToSend] a1 in
  let release := {| tr_id := nextId a2; tr_releaseMethods := methods |} in
  (release,
   set_releaseMethods (releaseMethods a2 ++ [release]) (fresh_closure a2)).

(** The closure of lines 278-281. Modelled from the spec: [removeObject]
    makes the closure remove "itself from the pending-release list". *)
Definition try_typesRelease (t : TypesRelease) (a : DataAdapter)
  : Completion :=
  andThen (forEach_call try_release (tr_releaseMethods t) a)
    (fun a1 =>
       Normal (set_releaseMethods
                 (filter (fun t' => negb (tr_id t' =? tr_id t))
                         (releaseMethods a1)) a1)).

(** The adapter after a call of that closure, returned or thrown. *)
Definition call_typesRelease (t : TypesRelease) (a : DataAdapter)
  : DataAdapter :=
  after (try_typesRelease t a).

Fixpoint revalidateAll {W : Type} (reval : W -> W * list Event)
    (m : JSMap W) : JSMap W * list Event :=
  match m with
  | [] => ([], [])
  | (c, x) :: m' =>
      let '(x', out) := reval x in
      let '(m'', out') := revalidateAll reval m' in
      ((c, x') :: m'', out ++ out')
  end.

(* lines 352-355 *)
Definition flushWatchers (w : World) (a : DataAdapter) : DataAdapter :=
  let '(tws, out1) := revalidateAll (TypeWatcher_revalidate w) (typeWatchers a) in
  let a1 := invoke out1 (set_typeWatchers tws a) in
  let '(rws, out2) :=
    revalidateAll (RecordsWatcher_revalidate w) (recordsWatchers a1) in
  invoke out2 (set_recordsWatchers rws a1).

(** Lines 362-369. Each watcher's release deletes the entry being visited
    and no other, so the two [Map.forEach] loops visit every entry present at
    their start, up to the first release that throws, which ends
    [willDestroy]; the third loop runs over the Ember array [releaseMethods]
    while its callbacks shorten it. *)
Definition try_willDestroy (a : DataAdapter) : Completion :=
  andThen (forEach_call (fun e => try_release (tw_release (snd e)))
                        (typeWatchers a) a)
    (fun a1 =>
       andThen (forEach_call (fun e => try_release (rw_release (snd e)))
                             (recordsWatchers a1) a1)
         (fun a2 =>
            Array_forEach (fun c => releaseMethods (after c))
                          (fun c fn => andThen c (try_typesRelease fn))
                          (Normal a2))).

(** The adapter after [willDestroy], returned or thrown. *)
Definition willDestroy (a : DataAdapter) : DataAdapter :=
  after (try_willDestroy a).

(** What the host and the debugging tool can do to a running adapter. An
    exception is the caller's to handle: the adapter goes on from the state
    the call has left. *)
Inductive Action : Type :=
| doWatchModelTypes (k : Caller)
| doWatchRecords (modelName : ModelName) (k : Caller)
| doRelease (f : ReleaseFn)
| doReleaseTypes (t : TypesRelease)
| doMutate (m : Mutation)
| doEnd
| doWillDestroy.

Record System : Type := {
  sys_world   : World;
  sys_adapter : DataAdapter
}.

(** ['end'] calls every registered listener. *)
Definition fire_end (w : World) (a : DataAdapter) : DataAdapter :=
  Nat.iter (listeners a) (flushWatchers w) a.

Definition act (s : System) (x : Action) : System :=
  let w := sys_world s in
  let a := sys_adapter s in
  match x with
  | doWatchModelTypes k =>
      {| sys_world := w; sys_adapter := snd (watchModelTypes w k a) |}
  | doWatchRecords modelName k =>
      {| sys_world := w; sys_adapter := snd (watchRecords w modelName k a) |}
  | doRelease f => {| sys_world := w; sys_adapter := call_release f a |}
  | doReleaseTypes t =>
      {| sys_world := w; sys_adapter := call_typesRelease t a |}
  | doMutate m => {| sys_world := mutate m w; sys_adapter := a |}
  | doEnd => {| sys_world := w; sys_adapter := fire_end w a |}
  | doWillDestroy => {| sys_world := w; sys_adapter := willDestroy a |}
  end.

Definition boot (contents : Coll -> list RecordId) : System :=
  {| sys_world := initialWorld contents; sys_adapter := init |}.

Definition play (xs : list Action) (s : System) : System := fold_left act xs s.

(** The signal reaches the adapter. *)
Definition subscribed (a : DataAdapter) : bool := 0 <? listeners a.

(** Some watcher of either kind is registered. *)
Definition watching (a : DataAdapter) : bool :=
  (0 <? Map_size (recordsWatchers a)) || (0 <? Map_size (typeWatchers a)).
End Coordinator.

(** ** What a trace says about one record *)

Inductive Report : Type := Added | Updated | Removed.

Definition Report_eqb (a b : Report) : bool :=
  match a, b with
  | Added, Added | Updated, Updated | Removed, Removed => true
  | _, _ => false
  end.

Definition mentions (r : RecordId) (l : list WrappedRecord) : list WrappedRecord :=
  filter (fun x => object x =? r) l.

(** The reports about [r] in one callback invocation, then in a trace. *)
Definition reports_of_event (r : RecordId) (e : Event) : list Report :=
  match e with
  | recordsAdded _ l   => map (fun _ => Added) (mentions r l)
  | recordsUpdated _ l => map (fun _ => Updated) (mentions r l)
  | recordsRemoved _ l => map (fun _ => Removed) (mentions r l)
  | typesAdded _ _ | typesUpdated _ _ => []
  end.

Definition reports (r : RecordId) (tr : list Event) : list Report :=
  flat_map (reports_of_event r) tr.

Definition times (x : Report) (l : list Report) : nat :=
  length (filter (Report_eqb x) l).

(** The life of a record as the callbacks tell it: absent until reported
    added, then present, possibly updated, until reported removed.
    [lifecycle present l] follows the reports [l] from there; [None] when a
    report is out of place. *)
Fixpoint lifecycle (present : bool) (l : list Report) : option bool :=
  match l with
  | [] => Some present
  | Added :: l' => if present then None else lifecycle true l'
  | Updated :: l' => if present then lifecycle true l' else None
  | Removed :: l' => if present then lifecycle false l' else None
  end.

(** The order in which one revalidation calls back. *)
Definition rank (e : Event) : nat :=
  match e with
  | recordsAdded _ _ => 0
  | recordsUpdated _ _ => 1
  | recordsRemoved _ _ => 2
  | typesAdded _ _ => 3
  | typesUpdated _ _ => 4
  end.

(** ** Notions used in the statements *)

Section Notions.
Context {H : Hooks}.

(** The three lists of a revalidation: those built by the run of the array
    computation, or empty ones when the memoized result is returned. *)
Definition diffOf (w : World) (rw : RecordsWatcher) : Diff :=
  if isValid w (recordArrayCache rw) then noDiff
  else snd (fst (collect w (rw_records rw) (recordCaches rw)
                         (beginTrackFrame idle))).

(** The tags of the node a record has in the map. *)
Definition nodeDeps (caches : JSMap RecordCache) (r : RecordId) : list Tag :=
  match Map_get r caches with
  | Some rc => deps (cache rc)
  | None => []
  end.

(** The dependencies the array computation ends up with. *)
Definition arrayDeps (w : World) (c : Coll) (caches : JSMap RecordCache)
  : list Tag :=
  TagArr c :: flat_map (nodeDeps caches) (store w c).

(** The record was in the array at some revalidation of the run. *)
Definition everPresent (c : Coll) (steps : list Step) (w : World)
    (r : RecordId) : Prop :=
  exists l, In l (snapshots c steps w) /\ In r l.

End Notions.

(** ** Sample data *)

(** A host for the examples: every model name is its own records array,
    there is one model type, and wrapping a record reads one tracked field
    of it. *)
Definition sampleHooks : Hooks :=
  {| getRecords := fun n => n;
     getModelTypes := [0];
     wrap_reads := fun r => [TagProp r] |}.

Definition sampleContents (c : Coll) : list RecordId :=
  if c =? 0 then [1; 2] else [].

Definition sampleWorld : World := initialWorld sampleContents.

(** A record that leaves the array, comes back and leaves again. *)
Definition leavesTwice : list Step :=
  [revalidate; mutation (removeObject 0 2); revalidate;
   mutation (pushObject 0 2); revalidate;
   mutation (removeObject 0 2); revalidate].

(** The run after which the record 2 has left the array but has not been
    swept yet. *)
Definition afterRemoval : Run :=
  @run sampleHooks [revalidate; mutation (removeObject 0 2)]
       (start sampleContents 0 7).



Definition cnt (r : RecordId) (l : list WrappedRecord) : nat :=
  length (mentions r l).

Unset Implicit Arguments.

(** * Properties *)

(** ** The validator *)

Lemma validateTag_fresh (w : World) (ts : list Tag) :
  validateTag w ts (valueForTag w ts) = true.
Proof. apply Nat.leb_refl. Qed.

Lemma popFrame_pushFrame (f : option (list Tag)) (v : Validator) :
  popFrame (pushFrame f v) = v.
Proof. destruct v; reflexivity. Qed.

Lemma endTrackFrame_consume (ts : list Tag) (v : Validator) :
  endTrackFrame (consumeTags ts (beginTrackFrame v)) = (ts, v).
Proof.
  unfold endTrackFrame, consumeTags, beginTrackFrame. simpl.
  f_equal. destruct v; reflexivity.
Qed.

Lemma consumeTags_untracked (ts : list Tag) (v : Validator) :
  CURRENT_TRACKER v = None -> consumeTags ts v = v.
Proof. unfold consumeTags; intros ->; reflexivity. Qed.

Lemma isValid_after_run (w : World) (ts : list Tag) :
  isValid w {| TAG := Some ts; SNAPSHOT := valueForTag w ts |} = true.
Proof. apply validateTag_fresh. Qed.

Lemma valueForTag_ext (w w' : World) (ts : list Tag) :
  (forall t, In t ts -> revs w' t = revs w t) ->
  valueForTag w' ts = valueForTag w ts.
Proof.
  induction ts as [|t ts IH]; simpl; intros E; [reflexivity|].
  rewrite E by auto. rewrite IH by auto. reflexivity.
Qed.

Lemma isValid_ext (w w' : World) (c : Cache) :
  (forall t, In t (deps c) -> revs w' t = revs w t) ->
  isValid w' c = isValid w c.
Proof.
  unfold isValid, deps, validateTag. destruct (TAG c); [|reflexivity].
  intros E. rewrite (valueForTag_ext w w' l E). reflexivity.
Qed.

Lemma valueForTag_ge (w : World) (ts : list Tag) (t : Tag) :
  In t ts -> revs w t <= valueForTag w ts.
Proof.
  induction ts as [|x ts IH]; simpl; [tauto|].
  intros [->|Hin]; [lia|]. specialize (IH Hin). lia.
Qed.

Lemma valueForTag_le (w : World) (ts : list Tag) (n : nat) :
  (forall t, revs w t <= n) -> valueForTag w ts <= n.
Proof.
  intros B. induction ts as [|x ts IH]; simpl; [lia|].
  specialize (B x). lia.
Qed.

(** ** JS maps *)

Section JSMapFacts.
Variable V : Type.
Implicit Types (m : JSMap V) (k r : nat) (x : V).

Lemma Map_get_set r k x m :
  Map_get r (Map_set k x m) = if r =? k then Some x else Map_get r m.
Proof.
  induction m as [|[k' x'] m IH]; simpl.
  - destruct (r =? k); reflexivity.
  - destruct (k =? k') eqn:E; simpl.
    + apply Nat.eqb_eq in E; subst k'. destruct (r =? k); reflexivity.
    + rewrite IH. destruct (r =? k) eqn:E1; [|reflexivity].
      apply Nat.eqb_eq in E1; subst r. rewrite E. reflexivity.
Qed.

Lemma Map_get_None r m : Map_get r m = None <-> ~ In r (Map_keys m).
Proof.
  induction m as [|[k' x'] m IH]; simpl; [tauto|].
  destruct (r =? k') eqn:E.
  - apply Nat.eqb_eq in E. split; [discriminate | intros N; exfalso; auto].
  - apply Nat.eqb_neq in E. rewrite IH. split; [intros N [->|I]; auto | auto].
Qed.

Lemma Map_get_Some_In r x m : Map_get r m = Some x -> In r (Map_keys m).
Proof.
  intros E. destruct (in_dec Nat.eq_dec r (Map_keys m)) as [I|N]; [exact I|].
  apply Map_get_None in N. congruence.
Qed.

Lemma In_keys_get r m : In r (Map_keys m) -> exists x, Map_get r m = Some x.
Proof.
  intros I. destruct (Map_get r m) eqn:E; [eauto|].
  apply Map_get_None in E. contradiction.
Qed.

Lemma In_keys_set r k x m :
  In r (Map_keys (Map_set k x m)) <-> r = k \/ In r (Map_keys m).
Proof.
  induction m as [|[k' x'] m IH]; simpl; [intuition|].
  destruct (k =? k') eqn:E; simpl.
  - apply Nat.eqb_eq in E; subst. intuition.
  - rewrite IH. intuition.
Qed.

Lemma NoDup_keys_set k x m :
  NoDup (Map_keys m) -> NoDup (Map_keys (Map_set k x m)).
Proof.
  induction m as [|[k' x'] m IH]; simpl; intros ND.
  - constructor; [simpl; tauto | constructor].
  - inversion ND as [|? ? N ND']; subst.
    destruct (k =? k') eqn:E; simpl.
    + apply Nat.eqb_eq in E; subst. constructor; assumption.
    + constructor; [|auto]. rewrite In_keys_set. intros [->|I]; [|auto].
      rewrite Nat.eqb_refl in E. discriminate.
Qed.

Lemma Map_get_delete r k m :
  Map_get r (Map_delete k m) = if r =? k then None else Map_get r m.
Proof.
  induction m as [|[k' x'] m IH]; simpl.
  - destruct (r =? k); reflexivity.
  - destruct (k' =? k) eqn:E; simpl.
    + rewrite IH. apply Nat.eqb_eq in E; subst k'.
      destruct (r =? k); reflexivity.
    + rewrite IH. destruct (r =? k) eqn:E1; [|reflexivity].
      apply Nat.eqb_eq in E1; subst r. rewrite Nat.eqb_sym, E. reflexivity.
Qed.

Lemma Map_keys_delete k m :
  Map_keys (Map_delete k m) = filter (fun j => negb (j =? k)) (Map_keys m).
Proof.
  induction m as [|[k' x'] m IH]; simpl; [reflexivity|].
  destruct (k' =? k); simpl; rewrite IH; reflexivity.
Qed.

Lemma Map_delete_absent k m : ~ In k (Map_keys m) -> Map_delete k m = m.
Proof.
  induction m as [|[k' x'] m IH]; simpl; intros N; [reflexivity|].
  destruct (k' =? k) eqn:E.
  - apply Nat.eqb_eq in E. exfalso; auto.
  - simpl. rewrite IH by auto. reflexivity.
Qed.

Lemma Map_delete_gone k m : ~ In k (Map_keys (Map_delete k m)).
Proof.
  rewrite Map_keys_delete, filter_In. intros [_ E].
  rewrite Nat.eqb_refl in E. discriminate.
Qed.
End JSMapFacts.

Lemma NoDup_filter (A : Type) (f : A -> bool) (l : list A) :
  NoDup l -> NoDup (filter f l).
Proof.
  induction 1 as [|a l N ND IH]; simpl; [constructor|].
  destruct (f a); [|exact IH].
  constructor; [|exact IH]. rewrite filter_In. tauto.
Qed.

Lemma Set_has_In (x : nat) (s : list nat) : Set_has x s = true <-> In x s.
Proof.
  unfold Set_has. rewrite existsb_exists. split.
  - intros (y & I & E). apply Nat.eqb_eq in E. subst. exact I.
  - intros I. exists x. split; [exact I | apply Nat.eqb_refl].
Qed.

Lemma Set_has_false (x : nat) (s : list nat) : Set_has x s = false <-> ~ In x s.
Proof.
  rewrite <- Set_has_In. destruct (Set_has x s); split; congruence.
Qed.

(** ** Counting the mentions of a record *)

Lemma cnt_app (r : RecordId) (l l' : list WrappedRecord) :
  cnt r (l ++ l') = cnt r l + cnt r l'.
Proof. unfold cnt, mentions. rewrite filter_app, length_app. reflexivity. Qed.

Lemma cnt_one (r r' : RecordId) :
  cnt r [{| object := r' |}] = if r' =? r then 1 else 0.
Proof. unfold cnt, mentions. simpl. destruct (r' =? r); reflexivity. Qed.

Lemma cnt_pos_In (r : RecordId) (l : list WrappedRecord) :
  0 < cnt r l <-> In r (map object l).
Proof.
  unfold cnt, mentions. induction l as [|x l IH]; simpl; [split; [lia|tauto]|].
  destruct (object x =? r) eqn:E; simpl.
  - apply Nat.eqb_eq in E. split; [auto | lia].
  - apply Nat.eqb_neq in E. rewrite IH. split; [auto | intros [?|?]; tauto].
Qed.

(** ** One pass over the records array *)

Section PassFacts.
Context {H : Hooks}.
Variable w : World.

(** The node of [r] right after its computation ran. *)
Definition ranNode (r : RecordId) : RecordCache :=
  {| hasBeenAdded := true;
     cache := {| TAG := Some (wrap_reads r);
                 SNAPSHOT := valueForTag w (wrap_reads r) |} |}.

Definition classify (flag : bool) (r : RecordId) (d : Diff) : Diff :=
  if flag then push_updated {| object := r |} d
  else push_added {| object := r |} d.

Lemma getValue_recordCache r c flag d v :
  getValue w (recordCache_fn r) c (flag, d) v =
  if isValid w c then (c, (flag, d), consumeTags (deps c) v)
  else (cache (ranNode r), (true, classify flag r d),
        consumeTags (wrap_reads r) v).
Proof.
  unfold getValue. destruct (isValid w c); [reflexivity|].
  unfold recordCache_fn, wrapRecord.
  destruct flag; cbv beta iota delta [negb];
    rewrite endTrackFrame_consume; reflexivity.
Qed.

Lemma visit_known caches d v r rc :
  Map_get r caches = Some rc ->
  visit w (caches, d, v) r =
  if isValid w (cache rc)
  then (Map_set r rc caches, add_seen r d, consumeTags (deps (cache rc)) v)
  else (Map_set r (ranNode r) caches,
        add_seen r (classify (hasBeenAdded rc) r d),
        consumeTags (wrap_reads r) v).
Proof.
  intros E. unfold visit. rewrite E, getValue_recordCache.
  destruct (isValid w (cache rc)); [destruct rc|]; reflexivity.
Qed.

Lemma visit_new caches d v r :
  Map_get r caches = None ->
  visit w (caches, d, v) r =
  (Map_set r (ranNode r) caches,
   add_seen r (push_added {| object := r |} d),
   consumeTags (wrap_reads r) v).
Proof.
  intros E. unfold visit. rewrite E, getValue_recordCache. reflexivity.
Qed.

(** What holds after the records [P] were visited, starting from the map
    [caches0] with empty lists. *)
Record VisitInv (caches0 : JSMap RecordCache) (P : list RecordId)
    (s : JSMap RecordCache * Diff * Validator) : Prop := {
  vi_keys : forall r, In r (Map_keys (fst (fst s))) <->
                      In r (Map_keys caches0) \/ In r P;
  vi_nodup : NoDup (Map_keys caches0) -> NoDup (Map_keys (fst (fst s)));
  vi_seen : forall r, In r (seen (snd (fst s))) <-> In r P;
  vi_removed : removed (snd (fst s)) = [];
  vi_ran : forall r rc, In r P -> Map_get r (fst (fst s)) = Some rc ->
                        isValid w (cache rc) = true;
  vi_flags : (forall r rc, Map_get r caches0 = Some rc ->
                           hasBeenAdded rc = true) ->
             forall r rc, Map_get r (fst (fst s)) = Some rc ->
                          hasBeenAdded rc = true;
  vi_rest : forall r, ~ In r P -> Map_get r (fst (fst s)) = Map_get r caches0;
  vi_once : forall r, cnt r (added (snd (fst s)))
                      + cnt r (updated (snd (fst s))) <= 1;
  vi_added : forall r, 0 < cnt r (added (snd (fst s))) ->
               In r P /\ forall rc, Map_get r caches0 = Some rc ->
                                    hasBeenAdded rc = false;
  vi_new : forall r, In r P -> Map_get r caches0 = None ->
                     cnt r (added (snd (fst s))) = 1;
  vi_updated : forall r, 0 < cnt r (updated (snd (fst s))) ->
                 In r P /\ exists rc, Map_get r caches0 = Some rc /\
                                      hasBeenAdded rc = true
}.

Lemma VisitInv_start caches0 v : VisitInv caches0 [] (caches0, noDiff, v).
Proof.
  constructor; simpl; unfold cnt; simpl;
    try tauto; try reflexivity; try (intros; lia).
Qed.

Lemma cnt_classify_added flag r r' d :
  cnt r' (added (classify flag r d)) =
  cnt r' (added d) + (if flag then 0 else if r =? r' then 1 else 0).
Proof.
  destruct flag; simpl; [lia|]. rewrite cnt_app, cnt_one. reflexivity.
Qed.

Lemma cnt_classify_updated flag r r' d :
  cnt r' (updated (classify flag r d)) =
  cnt r' (updated d) + (if flag then if r =? r' then 1 else 0 else 0).
Proof.
  destruct flag; simpl; [|lia]. rewrite cnt_app, cnt_one. reflexivity.
Qed.

Lemma VisitInv_step caches0 P s r :
  VisitInv caches0 P s -> VisitInv caches0 (P ++ [r]) (visit w s r).
Proof.
  destruct s as [[caches d] v]. intros [K N S R V F Fr O A Nw U].
  simpl in K, N, S, R, V, F, Fr, O, A, Nw, U.
  assert (InP : forall x, In x (P ++ [r]) <-> In x P \/ x = r).
  { intros x. rewrite in_app_iff. simpl. intuition. }
  destruct (Map_get r caches) as [rc|] eqn:G.
  - rewrite (visit_known _ d v _ _ G).
    destruct (isValid w (cache rc)) eqn:Val.
    + (* memoized: nothing is pushed *)
      constructor; simpl.
      * intros x. rewrite In_keys_set, K, InP.
        pose proof (Map_get_Some_In _ _ _ _ G) as I. apply K in I.
        intuition (subst; auto).
      * intros ND. apply NoDup_keys_set. auto.
      * intros x. rewrite InP, <- S. intuition.
      * exact R.
      * intros x rc' I. rewrite Map_get_set.
        destruct (x =? r) eqn:E; [congruence|].
        apply Nat.eqb_neq in E. apply InP in I. apply V. tauto.
      * intros Fl x rc'. rewrite Map_get_set.
        destruct (x =? r); [intros [= <-]; eauto | apply F; exact Fl].
      * intros x NI. rewrite InP in NI. rewrite Map_get_set.
        destruct (x =? r) eqn:E; [apply Nat.eqb_eq in E; tauto|].
        apply Fr. tauto.
      * exact O.
      * intros x Hx. destruct (A x Hx) as [I Fx]. rewrite InP. auto.
      * intros x I G0. apply InP in I. destruct I as [I | ->]; [auto|].
        destruct (in_dec Nat.eq_dec r P) as [I|NI]; [auto|].
        rewrite (Fr r NI) in G. congruence.
      * intros x Hx. destruct (U x Hx) as [I Fx]. rewrite InP. auto.
    + (* the node runs again *)
      assert (NI : ~ In r P).
      { intros I. rewrite (V r rc I G) in Val. discriminate. }
      assert (G0 : Map_get r caches0 = Some rc) by (rewrite <- (Fr r NI); exact G).
      assert (Za : cnt r (added d) = 0).
      { destruct (cnt r (added d)) eqn:E; [reflexivity|].
        destruct (A r) as [I _]; [lia | contradiction]. }
      assert (Zu : cnt r (updated d) = 0).
      { destruct (cnt r (updated d)) eqn:E; [reflexivity|].
        destruct (U r) as [I _]; [lia | contradiction]. }
      constructor; simpl.
      * intros x. rewrite In_keys_set, K, InP.
        pose proof (Map_get_Some_In _ _ _ _ G) as I. apply K in I.
        intuition (subst; auto).
      * intros ND. apply NoDup_keys_set. auto.
      * intros x. rewrite InP, <- S.
        destruct (hasBeenAdded rc); simpl; intuition.
      * destruct (hasBeenAdded rc); exact R.
      * intros x rc' I. rewrite Map_get_set.
        destruct (x =? r) eqn:E.
        -- intros [= <-]. apply isValid_after_run.
        -- apply Nat.eqb_neq in E. apply InP in I. apply V. tauto.
      * intros Fl x rc'. rewrite Map_get_set.
        destruct (x =? r); [intros [= <-]; reflexivity | apply F; exact Fl].
      * intros x NIx. rewrite InP in NIx. rewrite Map_get_set.
        destruct (x =? r) eqn:E; [apply Nat.eqb_eq in E; tauto|].
        apply Fr. tauto.
      * intros x. rewrite cnt_classify_added, cnt_classify_updated.
        specialize (O x).
        destruct (r =? x) eqn:E; [apply Nat.eqb_eq in E; subst x|];
          destruct (hasBeenAdded rc); lia.
      * intros x. rewrite cnt_classify_added, InP.
        destruct (hasBeenAdded rc) eqn:Fg.
        -- rewrite Nat.add_0_r. intros Hx. destruct (A x Hx). auto.
        -- destruct (r =? x) eqn:E.
           ++ apply Nat.eqb_eq in E; subst x. intros _.
              split; [auto|]. intros rc'. rewrite G0. intros [= <-]. exact Fg.
           ++ rewrite Nat.add_0_r. intros Hx. destruct (A x Hx). auto.
      * intros x I Gx. apply InP in I. rewrite cnt_classify_added.
        destruct I as [I | ->]; [|congruence].
        rewrite (Nw x I Gx).
        destruct (hasBeenAdded rc); [reflexivity|].
        destruct (r =? x) eqn:E; [|reflexivity].
        apply Nat.eqb_eq in E; subst x. contradiction.
      * intros x. rewrite cnt_classify_updated, InP.
        destruct (hasBeenAdded rc) eqn:Fg.
        -- destruct (r =? x) eqn:E.
           ++ apply Nat.eqb_eq in E; subst x. intros _. eauto.
           ++ rewrite Nat.add_0_r. intros Hx. destruct (U x Hx). auto.
        -- rewrite Nat.add_0_r. intros Hx. destruct (U x Hx). auto.
  - (* a new node *)
    rewrite (visit_new _ d v _ G).
    assert (NK : ~ In r (Map_keys caches)) by (apply Map_get_None; exact G).
    assert (NI : ~ In r P) by (intros I; apply NK, K; auto).
    assert (G0 : Map_get r caches0 = None).
    { apply Map_get_None. intros I; apply NK, K; auto. }
    assert (Za : cnt r (added d) = 0).
    { destruct (cnt r (added d)) eqn:E; [reflexivity|].
      destruct (A r) as [I _]; [lia | contradiction]. }
    assert (Zu : cnt r (updated d) = 0).
    { destruct (cnt r (updated d)) eqn:E; [reflexivity|].
      destruct (U r) as [I _]; [lia | contradiction]. }
    constructor; simpl.
    + intros x. rewrite In_keys_set, K, InP. intuition.
    + intros ND. apply NoDup_keys_set. auto.
    + intros x. rewrite InP, <- S. intuition.
    + exact R.
    + intros x rc' I. rewrite Map_get_set.
      destruct (x =? r) eqn:E.
      * intros [= <-]. apply isValid_after_run.
      * apply Nat.eqb_neq in E. apply InP in I. apply V. tauto.
    + intros Fl x rc'. rewrite Map_get_set.
      destruct (x =? r); [intros [= <-]; reflexivity | apply F; exact Fl].
    + intros x NIx. rewrite InP in NIx. rewrite Map_get_set.
      destruct (x =? r) eqn:E; [apply Nat.eqb_eq in E; tauto|].
      apply Fr. tauto.
    + intros x. rewrite cnt_app, cnt_one. specialize (O x).
      destruct (r =? x) eqn:E; [apply Nat.eqb_eq in E; subst x|]; lia.
    + intros x. rewrite cnt_app, cnt_one, InP.
      destruct (r =? x) eqn:E.
      * apply Nat.eqb_eq in E; subst x. intros _.
        split; [auto|]. intros rc'. rewrite G0. discriminate.
      * rewrite Nat.add_0_r. intros Hx. destruct (A x Hx). auto.
    + intros x I Gx. apply InP in I. rewrite cnt_app, cnt_one.
      destruct I as [I | ->].
      * rewrite (Nw x I Gx). destruct (r =? x) eqn:E; [|reflexivity].
        apply Nat.eqb_eq in E; subst x. contradiction.
      * rewrite Za, Nat.eqb_refl. reflexivity.
    + intros x Hx. destruct (U x Hx) as [I Fx]. rewrite InP. auto.
Qed.

Lemma VisitInv_iterate caches0 L P s :
  VisitInv caches0 P s ->
  VisitInv caches0 (P ++ L) (iterate L (visit w) s).
Proof.
  unfold iterate. revert P s.
  induction L as [|r L IH]; simpl; intros P s I.
  - rewrite app_nil_r. exact I.
  - replace (P ++ r :: L) with ((P ++ [r]) ++ L)
      by (rewrite <- app_assoc; reflexivity).
    apply IH, VisitInv_step, I.
Qed.
End PassFacts.

(** ** The removal pass *)

Section SweepFacts.
Context {H : Hooks}.

Definition unseen (d : Diff) (k : nat) : bool := negb (Set_has k (seen d)).

Definition deleteAll (ks : list nat) (m : JSMap RecordCache)
  : JSMap RecordCache :=
  fold_left (fun m k => Map_delete k m) ks m.

Lemma sweep_fold L : forall caches d v,
  CURRENT_TRACKER v = None ->
  fold_left sweep L (caches, d, v) =
  (deleteAll (filter (unseen d) (Map_keys L)) caches,
   {| seen := seen d; added := added d; updated := updated d;
      removed := removed d
                 ++ map (fun k => {| object := k |})
                        (filter (unseen d) (Map_keys L)) |},
   v).
Proof.
  induction L as [|[k rc] L IH]; intros caches d v Hv.
  - simpl. rewrite app_nil_r. destruct d; reflexivity.
  - assert (E1 : sweep (caches, d, v) (k, rc) =
                 if unseen d k
                 then (Map_delete k caches,
                       push_removed {| object := k |} d, v)
                 else (caches, d, v)).
    { unfold sweep, unseen, wrapRecord. simpl fst.
      destruct (Set_has k (seen d)); simpl; [reflexivity|].
      rewrite consumeTags_untracked by exact Hv. reflexivity. }
    change (fold_left sweep ((k, rc) :: L) (caches, d, v))
      with (fold_left sweep L (sweep (caches, d, v) (k, rc))).
    rewrite E1.
    change (Map_keys ((k, rc) :: L)) with (k :: Map_keys L). cbn [filter].
    destruct (unseen d k) eqn:E.
    + rewrite IH by exact Hv.
      change (unseen (push_removed {| object := k |} d)) with (unseen d).
      simpl. rewrite <- app_assoc. reflexivity.
    + apply IH, Hv.
Qed.

Lemma Map_get_deleteAll ks : forall m r,
  Map_get r (deleteAll ks m) = if Set_has r ks then None else Map_get r m.
Proof.
  induction ks as [|k ks IH]; intros m r; [reflexivity|].
  change (deleteAll (k :: ks) m) with (deleteAll ks (Map_delete k m)).
  rewrite IH, Map_get_delete.
  change (Set_has r (k :: ks)) with ((r =? k) || Set_has r ks).
  destruct (r =? k), (Set_has r ks); reflexivity.
Qed.

Lemma Map_keys_deleteAll ks : forall m,
  Map_keys (deleteAll ks m) =
  filter (fun j => negb (Set_has j ks)) (Map_keys m).
Proof.
  induction ks as [|k ks IH]; intros m.
  - simpl. induction (Map_keys m) as [|j l IHl]; simpl; [reflexivity|].
    rewrite <- IHl. reflexivity.
  - change (deleteAll (k :: ks) m) with (deleteAll ks (Map_delete k m)).
    rewrite IH, Map_keys_delete.
    induction (Map_keys m) as [|j l IHl]; [reflexivity|].
    cbn [filter].
    change (Set_has j (k :: ks)) with ((j =? k) || Set_has j ks).
    destruct (j =? k); cbn [negb orb filter]; rewrite IHl; reflexivity.
Qed.

(** The removal pass leaves the tracking frames as it found them. *)
Lemma untrack_sweep caches1 d1 v :
  untrack removalPass (caches1, d1) v
  = ((deleteAll (filter (unseen d1) (Map_keys caches1)) caches1,
      {| seen := seen d1; added := added d1; updated := updated d1;
         removed := removed d1
                    ++ map (fun k => {| object := k |})
                           (filter (unseen d1) (Map_keys caches1)) |}),
     v).
Proof.
  unfold untrack, removalPass. simpl fst; simpl snd.
  rewrite sweep_fold by reflexivity.
  unfold endUntrackFrame, beginUntrackFrame.
  rewrite popFrame_pushFrame. reflexivity.
Qed.
End SweepFacts.

Lemma cnt_wrapped_In (r : RecordId) (l : list nat) :
  0 < cnt r (map (fun k => {| object := k |}) l) <-> In r l.
Proof. rewrite cnt_pos_In, map_map, map_id. tauto. Qed.

Lemma cnt_wrapped_NoDup (r : RecordId) (l : list nat) :
  NoDup l -> cnt r (map (fun k => {| object := k |}) l) <= 1.
Proof.
  induction 1 as [|k l N ND IH]; [unfold cnt; simpl; lia|].
  change (map (fun k => {| object := k |}) (k :: l))
    with ([{| object := k |}] ++ map (fun k => {| object := k |}) l).
  rewrite cnt_app, cnt_one. destruct (k =? r) eqn:E; [|lia].
  apply Nat.eqb_eq in E; subst k.
  destruct (cnt r (map (fun k => {| object := k |}) l)) eqn:C; [lia|].
  exfalso. apply N, cnt_wrapped_In. lia.
Qed.

(** ** What one run of the array computation leaves behind *)

Section CollectFacts.
Context {H : Hooks}.
Variables (w : World) (c : Coll).

Record CollectSpec (caches : JSMap RecordCache)
    (res : JSMap RecordCache * Diff * Validator) : Prop := {
  cs_keys : forall r, In r (Map_keys (fst (fst res))) <-> In r (store w c);
  cs_nodup : NoDup (Map_keys caches) -> NoDup (Map_keys (fst (fst res)));
  cs_valid : forall r rc, Map_get r (fst (fst res)) = Some rc ->
                          isValid w (cache rc) = true;
  cs_flags : (forall r rc, Map_get r caches = Some rc ->
                           hasBeenAdded rc = true) ->
             forall r rc, Map_get r (fst (fst res)) = Some rc ->
                          hasBeenAdded rc = true;
  cs_once : forall r, cnt r (added (snd (fst res)))
                      + cnt r (updated (snd (fst res))) <= 1;
  cs_added : forall r, 0 < cnt r (added (snd (fst res))) ->
               In r (store w c) /\
               forall rc, Map_get r caches = Some rc ->
                          hasBeenAdded rc = false;
  cs_new : forall r, In r (store w c) -> Map_get r caches = None ->
                     cnt r (added (snd (fst res))) = 1;
  cs_updated : forall r, 0 < cnt r (updated (snd (fst res))) ->
                 In r (store w c) /\
                 exists rc, Map_get r caches = Some rc /\
                            hasBeenAdded rc = true;
  cs_removed : forall r, 0 < cnt r (removed (snd (fst res))) <->
                 In r (Map_keys caches) /\ ~ In r (store w c);
  cs_removed_once : NoDup (Map_keys caches) ->
                    forall r, cnt r (removed (snd (fst res))) <= 1
}.

Lemma collect_spec caches v : CollectSpec caches (collect w c caches v).
Proof.
  unfold collect.
  pose proof (VisitInv_iterate w caches (store w c) []
                (caches, noDiff, consumeTag (TagArr c) v)
                (VisitInv_start w caches _)) as I.
  simpl app in I.
  destruct (iterate (store w c) (visit w)
              (caches, noDiff, consumeTag (TagArr c) v))
    as [[caches1 d1] v2] eqn:It.
  rewrite untrack_sweep.
  destruct I as [K N S R V F Fr O A Nw U].
  simpl in K, N, S, R, V, F, Fr, O, A, Nw, U.
  assert (Sw : forall r, In r (filter (unseen d1) (Map_keys caches1)) <->
                         In r (Map_keys caches) /\ ~ In r (store w c)).
  { intros r. rewrite filter_In, K. unfold unseen.
    rewrite negb_true_iff, Set_has_false, S. tauto. }
  assert (G : forall r, In r (store w c) ->
              Map_get r (deleteAll (filter (unseen d1) (Map_keys caches1))
                           caches1) = Map_get r caches1).
  { intros r I. rewrite Map_get_deleteAll.
    destruct (Set_has r (filter (unseen d1) (Map_keys caches1))) eqn:E;
      [|reflexivity].
    apply Set_has_In, Sw in E. tauto. }
  assert (Kk : forall r,
             In r (Map_keys (deleteAll (filter (unseen d1) (Map_keys caches1))
                               caches1)) <-> In r (store w c)).
  { intros r. rewrite Map_keys_deleteAll, filter_In, negb_true_iff,
      Set_has_false, Sw, K.
    destruct (in_dec Nat.eq_dec r (store w c)); tauto. }
  constructor; simpl.
  - exact Kk.
  - intros ND. rewrite Map_keys_deleteAll. apply NoDup_filter. auto.
  - intros r rc E. pose proof (Map_get_Some_In _ _ _ _ E) as I.
    apply Kk in I. rewrite (G r I) in E. eapply V; eauto.
  - intros Fl r rc E. pose proof (Map_get_Some_In _ _ _ _ E) as I.
    apply Kk in I. rewrite (G r I) in E. eapply F; eauto.
  - exact O.
  - exact A.
  - exact Nw.
  - exact U.
  - intros r. rewrite R. simpl. rewrite cnt_wrapped_In. apply Sw.
  - intros ND r. rewrite R. simpl. apply cnt_wrapped_NoDup.
    apply NoDup_filter. auto.
Qed.
End CollectFacts.

(** ** What the enclosing frame gets to see *)

Section TrackerFacts.
Context {H : Hooks}.
Variable w : World.

Lemma consumeTags_tracked ts cur v :
  CURRENT_TRACKER v = Some cur ->
  CURRENT_TRACKER (consumeTags ts v) = Some (cur ++ ts) /\
  OPEN_TRACK_FRAMES (consumeTags ts v) = OPEN_TRACK_FRAMES v.
Proof. unfold consumeTags. intros ->. split; reflexivity. Qed.

(** Visiting [r] consumes the tag of the node [r] has afterwards, and that
    node is valid. *)
Lemma visit_tracker caches d v r :
  let s := visit w (caches, d, v) r in
  snd s = consumeTags (nodeDeps (fst (fst s)) r) v /\
  exists rc, Map_get r (fst (fst s)) = Some rc /\
             isValid w (cache rc) = true.
Proof.
  unfold nodeDeps.
  destruct (Map_get r caches) as [rc|] eqn:G.
  - rewrite (visit_known w _ d v _ _ G).
    destruct (isValid w (cache rc)) eqn:Val; simpl;
      rewrite Map_get_set, Nat.eqb_refl; split; try reflexivity.
    + eauto.
    + eexists; split; [reflexivity | apply isValid_after_run].
  - rewrite (visit_new w _ d v _ G). simpl.
    rewrite Map_get_set, Nat.eqb_refl. split; [reflexivity|].
    eexists; split; [reflexivity | apply isValid_after_run].
Qed.

(** A valid node is left alone by the rest of the pass. *)
Lemma visit_stable caches d v r r' rc :
  Map_get r caches = Some rc -> isValid w (cache rc) = true ->
  Map_get r (fst (fst (visit w (caches, d, v) r'))) = Some rc.
Proof.
  intros G Val. destruct (Nat.eq_dec r' r) as [->|Ne].
  - rewrite (visit_known w _ d v _ _ G), Val. simpl.
    rewrite Map_get_set, Nat.eqb_refl. reflexivity.
  - assert (E : (r =? r') = false) by (apply Nat.eqb_neq; auto).
    destruct (Map_get r' caches) as [rc'|] eqn:G'.
    + rewrite (visit_known w _ d v _ _ G').
      destruct (isValid w (cache rc')); simpl; rewrite Map_get_set, E;
        exact G.
    + rewrite (visit_new w _ d v _ G'). simpl. rewrite Map_get_set, E.
      exact G.
Qed.

Lemma iterate_stable L : forall caches d v r rc,
  Map_get r caches = Some rc -> isValid w (cache rc) = true ->
  Map_get r (fst (fst (iterate L (visit w) (caches, d, v)))) = Some rc.
Proof.
  unfold iterate.
  induction L as [|r' L IH]; intros caches d v r rc G Val; [exact G|].
  change (fold_left (visit w) (r' :: L) (caches, d, v))
    with (fold_left (visit w) L (visit w (caches, d, v) r')).
  pose proof (visit_stable caches d v r r' rc G Val) as St.
  destruct (visit w (caches, d, v) r') as [[caches1 d1] v1].
  apply IH; assumption.
Qed.

Lemma iterate_tracker L : forall caches d v cur,
  CURRENT_TRACKER v = Some cur ->
  let s := iterate L (visit w) (caches, d, v) in
  CURRENT_TRACKER (snd s) = Some (cur ++ flat_map (nodeDeps (fst (fst s))) L)
  /\ OPEN_TRACK_FRAMES (snd s) = OPEN_TRACK_FRAMES v.
Proof.
  unfold iterate.
  induction L as [|r L IH]; intros caches d v cur Hv.
  - simpl. rewrite app_nil_r. auto.
  - change (fold_left (visit w) (r :: L) (caches, d, v))
      with (fold_left (visit w) L (visit w (caches, d, v) r)).
    destruct (visit_tracker caches d v r) as [Ev (rc & G & Val)].
    destruct (visit w (caches, d, v) r) as [[caches1 d1] v1].
    simpl in Ev, G.
    destruct (consumeTags_tracked (nodeDeps caches1 r) cur v Hv) as [C O].
    rewrite <- Ev in C, O.
    destruct (IH caches1 d1 v1 _ C) as [C' O'].
    pose proof (iterate_stable L caches1 d1 v1 r rc G Val) as St.
    unfold iterate in St.
    split; [|congruence].
    rewrite C'. simpl flat_map. rewrite <- app_assoc. do 3 f_equal.
    unfold nodeDeps. rewrite St, G. reflexivity.
Qed.
End TrackerFacts.

Lemma flat_map_agree (A B : Type) (f g : A -> list B) (l : list A) :
  (forall a, In a l -> f a = g a) -> flat_map f l = flat_map g l.
Proof.
  induction l as [|a l IH]; simpl; intros E; [reflexivity|].
  rewrite E, IH by auto. reflexivity.
Qed.

Section RevalidateFacts.
Context {H : Hooks}.
Variable w : World.

Lemma collect_tracker c caches v cur :
  CURRENT_TRACKER v = Some cur ->
  let res := collect w c caches v in
  CURRENT_TRACKER (snd res) =
    Some (cur ++ TagArr c :: flat_map (nodeDeps (fst (fst res))) (store w c))
  /\ OPEN_TRACK_FRAMES (snd res) = OPEN_TRACK_FRAMES v.
Proof.
  intros Hv. unfold collect.
  destruct (consumeTags_tracked [TagArr c] cur v Hv) as [C O].
  fold (consumeTag (TagArr c)) in C, O.
  pose proof (iterate_tracker w (store w c) caches noDiff _ _ C) as T.
  pose proof (VisitInv_iterate w caches (store w c) []
                (caches, noDiff, consumeTag (TagArr c) v)
                (VisitInv_start w caches _)) as I.
  simpl app in I.
  destruct (iterate (store w c) (visit w)
              (caches, noDiff, consumeTag (TagArr c) v))
    as [[caches1 d1] v2] eqn:It.
  rewrite untrack_sweep. simpl in T |- *. destruct T as [T1 T2].
  split; [|congruence].
  rewrite T1, <- app_assoc. simpl. do 3 f_equal.
  apply flat_map_agree. intros r Ir. unfold nodeDeps.
  rewrite Map_get_deleteAll.
  destruct (Set_has r (filter (unseen d1) (Map_keys caches1))) eqn:E;
    [|reflexivity].
  apply Set_has_In, filter_In in E. destruct E as [_ E].
  unfold unseen in E. rewrite negb_true_iff, Set_has_false in E.
  exfalso. apply E. apply (vi_seen _ _ _ _ I). exact Ir.
Qed.

Lemma revalidate_memo rw :
  isValid w (recordArrayCache rw) = true ->
  RecordsWatcher_revalidate w rw = (rw, []).
Proof.
  intros Val. unfold RecordsWatcher_revalidate, getValue. rewrite Val.
  destruct rw; reflexivity.
Qed.

Lemma revalidate_run rw :
  isValid w (recordArrayCache rw) = false ->
  RecordsWatcher_revalidate w rw =
  let res := collect w (rw_records rw) (recordCaches rw)
                     (beginTrackFrame idle) in
  ({| rw_records := rw_records rw; rw_callbacks := rw_callbacks rw;
      recordCaches := fst (fst res);
      recordArrayCache :=
        {| TAG := Some (arrayDeps w (rw_records rw) (fst (fst res)));
           SNAPSHOT :=
             valueForTag w (arrayDeps w (rw_records rw) (fst (fst res))) |};
      rw_release := rw_release rw |},
   dispatch (rw_callbacks rw) (snd (fst res))).
Proof.
  intros Val. unfold RecordsWatcher_revalidate, getValue. rewrite Val.
  unfold recordArrayCache_fn.
  destruct (collect_tracker (rw_records rw) (recordCaches rw)
              (beginTrackFrame idle) [] eq_refl) as [C O].
  destruct (collect w (rw_records rw) (recordCaches rw)
              (beginTrackFrame idle)) as [[caches2 d2] v3].
  simpl in C, O. cbv beta iota. unfold endTrackFrame.
  rewrite C. reflexivity.
Qed.

Lemma revalidate_valid rw :
  isValid w (recordArrayCache (fst (RecordsWatcher_revalidate w rw))) = true.
Proof.
  destruct (isValid w (recordArrayCache rw)) eqn:Val.
  - rewrite revalidate_memo by exact Val. exact Val.
  - rewrite revalidate_run by exact Val. apply isValid_after_run.
Qed.
End RevalidateFacts.

(** ** The callbacks of one revalidation *)

Section DispatchFacts.
Context {H : Hooks}.

Lemma revalidate_out w rw :
  snd (RecordsWatcher_revalidate w rw) =
  if isValid w (recordArrayCache rw) then []
  else dispatch (rw_callbacks rw) (diffOf w rw).
Proof.
  unfold diffOf. destruct (isValid w (recordArrayCache rw)) eqn:Val.
  - rewrite revalidate_memo by exact Val. reflexivity.
  - rewrite revalidate_run by exact Val. reflexivity.
Qed.

Lemma dispatch_added k d k' l :
  In (recordsAdded k' l) (dispatch k d) <-> k' = k /\ l = added d /\ l <> [].
Proof.
  unfold dispatch.
  destruct (added d) as [|a la], (updated d) as [|u lu],
    (removed d) as [|x lx]; simpl;
    intuition (try discriminate; try congruence).
Qed.

Lemma dispatch_updated k d k' l :
  In (recordsUpdated k' l) (dispatch k d) <->
  k' = k /\ l = updated d /\ l <> [].
Proof.
  unfold dispatch.
  destruct (added d) as [|a la], (updated d) as [|u lu],
    (removed d) as [|x lx]; simpl;
    intuition (try discriminate; try congruence).
Qed.

Lemma dispatch_removed k d k' l :
  In (recordsRemoved k' l) (dispatch k d) <->
  k' = k /\ l = removed d /\ l <> [].
Proof.
  unfold dispatch.
  destruct (added d) as [|a la], (updated d) as [|u lu],
    (removed d) as [|x lx]; simpl;
    intuition (try discriminate; try congruence).
Qed.

Lemma dispatch_ordered k d :
  StronglySorted (fun a b => rank a < rank b) (dispatch k d) /\
  forall e, In e (dispatch k d) -> rank e <= 2.
Proof.
  unfold dispatch.
  destruct (added d) as [|a la], (updated d) as [|u lu],
    (removed d) as [|x lx]; simpl; split;
    try (repeat first [apply SSorted_nil | apply SSorted_cons
                      | apply Forall_nil | apply Forall_cons | simpl; lia ]);
    intros e I; repeat (destruct I as [<-|I]; [simpl; lia|]); destruct I.
Qed.

Lemma dispatch_nothing k d :
  added d = [] -> updated d = [] -> removed d = [] -> dispatch k d = [].
Proof. unfold dispatch. intros -> -> ->. reflexivity. Qed.

Lemma map_const_repeat (A B : Type) (x : B) (l : list A) :
  map (fun _ => x) l = repeat x (length l).
Proof. induction l; simpl; congruence. Qed.

Lemma reports_app r tr tr' :
  reports r (tr ++ tr') = reports r tr ++ reports r tr'.
Proof. unfold reports. apply flat_map_app. Qed.

(** The reports about [r] in the callbacks of one pass. *)
Lemma reports_dispatch r k d :
  reports r (dispatch k d) =
  repeat Added (cnt r (added d)) ++ repeat Updated (cnt r (updated d))
  ++ repeat Removed (cnt r (removed d)).
Proof.
  unfold dispatch. rewrite !reports_app. unfold cnt.
  f_equal; [|f_equal].
  - destruct (added d); simpl; [reflexivity|].
    rewrite app_nil_r. apply map_const_repeat.
  - destruct (updated d); simpl; [reflexivity|].
    rewrite app_nil_r. apply map_const_repeat.
  - destruct (removed d); simpl; [reflexivity|].
    rewrite app_nil_r. apply map_const_repeat.
Qed.

Lemma times_app x l l' : times x (l ++ l') = times x l + times x l'.
Proof. unfold times. rewrite filter_app, length_app. reflexivity. Qed.

Lemma times_repeat x y n :
  times x (repeat y n) = if Report_eqb x y then n else 0.
Proof.
  unfold times. induction n as [|n IH]; simpl.
  - destruct (Report_eqb x y); reflexivity.
  - destruct (Report_eqb x y); simpl; rewrite IH; reflexivity.
Qed.

Lemma times_dispatch r k d :
  times Added (reports r (dispatch k d)) = cnt r (added d) /\
  times Updated (reports r (dispatch k d)) = cnt r (updated d) /\
  times Removed (reports r (dispatch k d)) = cnt r (removed d).
Proof.
  rewrite reports_dispatch, !times_app, !times_repeat. simpl. lia.
Qed.
End DispatchFacts.

(** ** TypeWatcher *)

Section TypeWatcherFacts.
Context {H : Hooks}.

Lemma tw_revalidate_memo w tw :
  isValid w (tw_cache tw) = true -> TypeWatcher_revalidate w tw = (tw, []).
Proof.
  intros Val. unfold TypeWatcher_revalidate, getValue. rewrite Val.
  destruct tw; reflexivity.
Qed.

Lemma tw_revalidate_run w tw :
  isValid w (tw_cache tw) = false ->
  TypeWatcher_revalidate w tw =
  let tags := if hasBeenAccessed tw
              then [TagArr (tw_records tw);
                    TagArr (getRecords (tw_modelName tw))]
              else [TagArr (tw_records tw)] in
  ({| tw_records := tw_records tw; tw_callbacks := tw_callbacks tw;
      tw_modelName := tw_modelName tw; hasBeenAccessed := true;
      tw_cache := {| TAG := Some tags; SNAPSHOT := valueForTag w tags |};
      tw_release := tw_release tw |},
   if hasBeenAccessed tw
   then [typesUpdated (tw_callbacks tw)
           [{| name := tw_modelName tw;
               count := length (store w (getRecords (tw_modelName tw))) |}]]
   else []).
Proof.
  intros Val. unfold TypeWatcher_revalidate, getValue. rewrite Val.
  unfold typeCache_fn, onChange, wrapModelType.
  destruct (hasBeenAccessed tw); reflexivity.
Qed.

Lemma tw_revalidate_valid w tw :
  isValid w (tw_cache (fst (TypeWatcher_revalidate w tw))) = true.
Proof.
  destruct (isValid w (tw_cache tw)) eqn:Val.
  - rewrite tw_revalidate_memo by exact Val. exact Val.
  - rewrite tw_revalidate_run by exact Val. apply isValid_after_run.
Qed.
End TypeWatcherFacts.

(** * One revalidation *)

(** C2. One call of [revalidate()] invokes each of [recordsAdded],
    [recordsUpdated], [recordsRemoved] at most once, exactly when the list of
    its category is non-empty and with that list, in the order added, updated,
    removed; it invokes nothing else, and nothing at all when the three lists
    are empty. *)
Theorem revalidate_callbacks {H : Hooks} (w : World) (rw : RecordsWatcher) :
  let out := snd (RecordsWatcher_revalidate w rw) in
  let d := diffOf w rw in
  (forall k l, In (recordsAdded k l) out <->
               k = rw_callbacks rw /\ l = added d /\ l <> [])
  /\ (forall k l, In (recordsUpdated k l) out <->
                  k = rw_callbacks rw /\ l = updated d /\ l <> [])
  /\ (forall k l, In (recordsRemoved k l) out <->
                  k = rw_callbacks rw /\ l = removed d /\ l <> [])
  /\ StronglySorted (fun a b => rank a < rank b) out
  /\ (forall e, In e out -> rank e <= 2)
  /\ (added d = [] -> updated d = [] -> removed d = [] -> out = []).
Proof.
  cbv zeta. rewrite revalidate_out. unfold diffOf.
  destruct (isValid w (recordArrayCache rw)).
  - simpl. repeat split; try tauto; try constructor;
      intros (_ & -> & N); apply N; reflexivity.
  - split; [|split; [|split; [|split; [|split]]]].
    + intros k l. apply dispatch_added.
    + intros k l. apply dispatch_updated.
    + intros k l. apply dispatch_removed.
    + apply dispatch_ordered.
    + apply dispatch_ordered.
    + apply dispatch_nothing.
Qed.

(** C5. A watcher of either kind that is revalidated again, while no tag its
    computation depends on has changed, invokes no callback. *)
Theorem revalidate_again_silent {H : Hooks} (w w' : World)
    (rw : RecordsWatcher) (tw : TypeWatcher) :
  (forall t, In t (deps (recordArrayCache (fst (RecordsWatcher_revalidate w rw))))
             -> revs w' t = revs w t) ->
  (forall t, In t (deps (tw_cache (fst (TypeWatcher_revalidate w tw))))
             -> revs w' t = revs w t) ->
  snd (RecordsWatcher_revalidate w' (fst (RecordsWatcher_revalidate w rw))) = []
  /\ snd (TypeWatcher_revalidate w' (fst (TypeWatcher_revalidate w tw))) = [].
Proof.
  intros Er Et. split.
  - rewrite revalidate_memo; [reflexivity|].
    rewrite (isValid_ext w w' _ Er). apply revalidate_valid.
  - rewrite tw_revalidate_memo; [reflexivity|].
    rewrite (isValid_ext w w' _ Et). apply tw_revalidate_valid.
Qed.

Lemma revalidate_again_silent_witness :
  let w := initialWorld sampleContents in
  let w' := mutate (setProp 9) w in
  let rw := @new_RecordsWatcher 0 7 (releaseRecords 0 0) in
  let tw := @new_TypeWatcher 0 7 0 (releaseType 1 0) in
  snd (@RecordsWatcher_revalidate sampleHooks w'
         (fst (@RecordsWatcher_revalidate sampleHooks w rw))) = []
  /\ snd (@TypeWatcher_revalidate sampleHooks w'
            (fst (@TypeWatcher_revalidate sampleHooks w tw))) = [].
Proof.
  apply (@revalidate_again_silent sampleHooks).
  - intros t I. vm_compute in I.
    destruct I as [<-|[<-|[<-|[]]]]; reflexivity.
  - intros t I. vm_compute in I. destruct I as [<-|[]]; reflexivity.
Defined.

(** C10. In the callbacks of one revalidation a record is mentioned at most
    once in the added and updated lists taken together, however often it
    occurs in the records array. *)
Theorem record_classified_once {H : Hooks} (w : World) (rw : RecordsWatcher)
    (r : RecordId) :
  let out := snd (RecordsWatcher_revalidate w rw) in
  times Added (reports r out) + times Updated (reports r out) <= 1.
Proof.
  cbv zeta. rewrite revalidate_out.
  destruct (isValid w (recordArrayCache rw)) eqn:Val;
    [unfold times, reports; simpl; lia|].
  destruct (times_dispatch r (rw_callbacks rw) (diffOf w rw)) as (-> & -> & _).
  unfold diffOf. rewrite Val.
  apply (cs_once _ _ _ _ (collect_spec w (rw_records rw) (recordCaches rw) _)).
Qed.

(** C7. The removal pass of a revalidation leaves the tracking frames exactly
    as it found them, whatever it wraps and deletes. So the dependencies of
    the array computation after a run are the tag of the array and the tags of
    the nodes of the records in the array, and nothing else; the nodes that
    remain are those of the records in the array, and a record reported as
    removed has no node left to poll. *)
Theorem removal_pass_untracked {H : Hooks} (w : World) (rw : RecordsWatcher) :
  isValid w (recordArrayCache rw) = false ->
  let rw' := fst (RecordsWatcher_revalidate w rw) in
  let c := rw_records rw in
  (forall caches d v, snd (untrack removalPass (caches, d) v) = v)
  /\ deps (recordArrayCache rw') =
     TagArr c :: flat_map (nodeDeps (recordCaches rw')) (store w c)
  /\ (forall r, In r (Map_keys (recordCaches rw')) <-> In r (store w c))
  /\ (forall r, 0 < cnt r (removed (diffOf w rw)) ->
                Map_get r (recordCaches rw') = None).
Proof.
  intros Val. cbv zeta. unfold diffOf. rewrite revalidate_run, Val by exact Val.
  pose proof (collect_spec w (rw_records rw) (recordCaches rw)
                (beginTrackFrame idle)) as CS.
  simpl. split; [|split; [|split]].
  - intros caches d v. rewrite untrack_sweep. reflexivity.
  - reflexivity.
  - apply (cs_keys _ _ _ _ CS).
  - intros r Hr. apply (cs_removed _ _ _ _ CS) in Hr.
    apply Map_get_None. rewrite (cs_keys _ _ _ _ CS). tauto.
Qed.

Lemma removal_pass_untracked_witness :
  isValid (world afterRemoval) (recordArrayCache (watcher afterRemoval)) = false
  /\ snd (@RecordsWatcher_revalidate sampleHooks (world afterRemoval)
            (watcher afterRemoval))
     = [recordsRemoved 7 [{| object := 2 |}]]
  /\ deps (recordArrayCache
             (fst (@RecordsWatcher_revalidate sampleHooks (world afterRemoval)
                     (watcher afterRemoval))))
     = [TagArr 0; TagProp 1].
Proof.
  split; [reflexivity|]. split; [reflexivity|].
  destruct (@removal_pass_untracked sampleHooks (world afterRemoval)
              (watcher afterRemoval) eq_refl) as (_ & E & _).
  rewrite E. reflexivity.
Defined.

(** * A watcher over a run *)

Lemma lifecycle_app l : forall b l',
  lifecycle b (l ++ l') =
  match lifecycle b l with Some b' => lifecycle b' l' | None => None end.
Proof.
  induction l as [|x l IH]; intros b l'; simpl; [reflexivity|].
  destruct x, b; auto.
Qed.

Lemma lifecycle_counts l : forall b0 b,
  lifecycle b0 l = Some b ->
  times Added l + (if b0 then 1 else 0) =
  times Removed l + (if b then 1 else 0).
Proof.
  unfold times.
  induction l as [|x l IH]; intros b0 b E; simpl in E.
  - injection E as <-. simpl. lia.
  - destruct x, b0; try discriminate; simpl; specialize (IH _ _ E);
      simpl in IH; lia.
Qed.

(** Inside a well-formed life every update comes after an added report. *)
Lemma lifecycle_updated_after_added l : forall l1 l2 b,
  lifecycle false l = Some b -> l = l1 ++ Updated :: l2 ->
  0 < times Added l1.
Proof.
  intros l1 l2 b E ->. rewrite lifecycle_app in E.
  destruct (lifecycle false l1) as [b1|] eqn:E1; [|discriminate].
  simpl in E. destruct b1; [|discriminate].
  pose proof (lifecycle_counts _ _ _ E1) as C. simpl in C. lia.
Qed.

Lemma lifecycle_removed_after_added l : forall l1 l2 b,
  lifecycle false l = Some b -> l = l1 ++ Removed :: l2 ->
  times Removed l1 < times Added l1.
Proof.
  intros l1 l2 b E ->. rewrite lifecycle_app in E.
  destruct (lifecycle false l1) as [b1|] eqn:E1; [|discriminate].
  simpl in E. destruct b1; [|discriminate].
  pose proof (lifecycle_counts _ _ _ E1) as C. simpl in C. lia.
Qed.

Lemma valueForTag_mono (w w' : World) (ts : list Tag) :
  (forall t, revs w t <= revs w' t) -> valueForTag w ts <= valueForTag w' ts.
Proof.
  intros M. induction ts as [|t ts IH]; simpl; [lia|].
  specialize (M t). lia.
Qed.

Lemma isValid_mono (w w' : World) (c : Cache) :
  (forall t, revs w t <= revs w' t) ->
  isValid w' c = true -> isValid w c = true.
Proof.
  unfold isValid, validateTag. intros M. destruct (TAG c); [|auto].
  rewrite !Nat.leb_le. pose proof (valueForTag_mono w w' l M). lia.
Qed.

Lemma dirtyTag_facts (t : Tag) (w : World) :
  (forall x, revs w x <= clock w) ->
  (forall x, revs w x <= revs (dirtyTag t w) x) /\
  (forall x, revs (dirtyTag t w) x <= clock (dirtyTag t w)) /\
  clock (dirtyTag t w) = S (clock w) /\
  revs (dirtyTag t w) t = S (clock w).
Proof.
  intros B. unfold dirtyTag; simpl. repeat split.
  - intros x. destruct (Tag_eq_dec t x); [specialize (B x); lia | lia].
  - intros x. destruct (Tag_eq_dec t x); [lia | specialize (B x); lia].
  - destruct (Tag_eq_dec t t); [reflexivity | contradiction].
Qed.

Lemma mutate_facts (m : Mutation) (w : World) :
  (forall x, revs w x <= clock w) ->
  (forall x, revs w x <= revs (mutate m w) x) /\
  (forall x, revs (mutate m w) x <= clock (mutate m w)) /\
  clock w <= clock (mutate m w) /\
  forall c, store (mutate m w) c = store w c \/
            revs (mutate m w) (TagArr c) = S (clock w).
Proof.
  intros B. destruct m as [c r|c r|r]; simpl.
  - destruct (dirtyTag_facts (TagArr c)
                (setStore c (store w c ++ [r]) w) B) as (M & B' & C & E).
    repeat split; try assumption; [simpl in C |- *; lia|].
    intros c'. simpl. destruct (Nat.eq_dec c c') as [<-|Ne]; [|auto].
    right. exact E.
  - destruct (Set_has r (store w c)); [|repeat split; auto].
    destruct (dirtyTag_facts (TagArr c)
                (setStore c (filter (fun x => negb (x =? r)) (store w c)) w) B)
      as (M & B' & C & E).
    repeat split; try assumption; [simpl in C |- *; lia|].
    intros c'. simpl. destruct (Nat.eq_dec c c') as [<-|Ne]; [|auto].
    right. exact E.
  - destruct (dirtyTag_facts (TagProp r) w B) as (M & B' & C & E).
    repeat split; try assumption; [lia | auto].
Qed.

Section RunFacts.
Context {H : Hooks}.
Variable c : Coll.

(** What every state of a run satisfies. *)
Record RunInv (s : Run) : Prop := {
  ri_records : rw_records (watcher s) = c;
  ri_nodup : NoDup (Map_keys (recordCaches (watcher s)));
  ri_flags : forall r rc, Map_get r (recordCaches (watcher s)) = Some rc ->
                          hasBeenAdded rc = true;
  ri_life : forall r, lifecycle false (reports r (trace s)) =
                      Some (Set_has r (Map_keys (recordCaches (watcher s))));
  ri_revs : forall t, revs (world s) t <= clock (world s);
  ri_snap : SNAPSHOT (recordArrayCache (watcher s)) <= clock (world s);
  ri_arr : forall ts, TAG (recordArrayCache (watcher s)) = Some ts ->
                      In (TagArr c) ts;
  ri_sync : isValid (world s) (recordArrayCache (watcher s)) = true ->
            forall r, In r (Map_keys (recordCaches (watcher s))) <->
                      In r (store (world s) c)
}.

Lemma RunInv_start contents k : RunInv (start contents c k).
Proof.
  constructor; simpl; try discriminate; try lia; auto.
  constructor.
Qed.

Lemma RunInv_mutation s m :
  RunInv s -> RunInv (step s (mutation m)).
Proof.
  intros [R N F L B Sn A Sy].
  destruct (mutate_facts m (world s) B) as (M & B' & C & St).
  constructor; simpl; try assumption; [lia|].
  intros Val r. pose proof (isValid_mono _ _ _ M Val) as Val0.
  destruct (St c) as [E|E]; [rewrite E; apply Sy, Val0|].
  exfalso. unfold isValid in Val.
  destruct (TAG (recordArrayCache (watcher s))) as [ts|] eqn:T;
    [|discriminate].
  apply Nat.leb_le in Val.
  pose proof (valueForTag_ge (mutate m (world s)) ts _ (A ts eq_refl)). lia.
Qed.

Lemma Set_has_iff (x : nat) (l l' : list nat) :
  (In x l <-> In x l') -> Set_has x l = Set_has x l'.
Proof.
  intros E. destruct (Set_has x l') eqn:E'.
  - apply Set_has_In. apply E. apply Set_has_In. exact E'.
  - apply Set_has_false. rewrite E. apply Set_has_false. exact E'.
Qed.

Lemma lifecycle_repeat_updated n : lifecycle true (repeat Updated n) = Some true.
Proof. induction n; simpl; auto. Qed.

Lemma RunInv_revalidate s : RunInv s -> RunInv (step s revalidate).
Proof.
  intros I. pose proof I as [R N F L B Sn A Sy]. unfold step.
  destruct (isValid (world s) (recordArrayCache (watcher s))) eqn:Val.
  - rewrite revalidate_memo by exact Val.
    constructor; simpl; try assumption;
      [rewrite app_nil_r; exact L | intros _; exact (Sy eq_refl)].
  - rewrite revalidate_run by exact Val. cbv zeta. rewrite R.
    pose proof (collect_spec (world s) c (recordCaches (watcher s))
                  (beginTrackFrame idle)) as CS.
    destruct (collect (world s) c (recordCaches (watcher s))
                (beginTrackFrame idle)) as [[caches2 d2] v3].
    destruct CS as [K2 N2 V2 F2 O2 A2 Nw2 U2 Rm2 Ro2].
    simpl in K2, N2, V2, F2, O2, A2, Nw2, U2, Rm2, Ro2.
    constructor; simpl.
    + first [reflexivity | exact R].
    + exact (N2 N).
    + exact (F2 F).
    + intros r. rewrite reports_app, lifecycle_app, L, reports_dispatch.
      rewrite (Set_has_iff r (Map_keys caches2) (store (world s) c) (K2 r)).
      specialize (O2 r). specialize (Ro2 N r).
      destruct (Set_has r (Map_keys (recordCaches (watcher s)))) eqn:E.
      * apply Set_has_In in E.
        destruct (In_keys_get _ _ _ E) as [rc G].
        assert (Za : cnt r (added d2) = 0).
        { destruct (cnt r (added d2)) eqn:Ca; [reflexivity|].
          destruct (A2 r) as [_ Fa]; [lia|].
          specialize (Fa rc G). rewrite (F r rc G) in Fa. discriminate. }
        rewrite Za. simpl.
        destruct (in_dec Nat.eq_dec r (store (world s) c)) as [Is|Ns].
        -- assert (Zr : cnt r (removed d2) = 0).
           { destruct (cnt r (removed d2)) eqn:Cr; [reflexivity|].
             destruct (proj1 (Rm2 r)); [lia | contradiction]. }
           rewrite Zr. simpl. rewrite app_nil_r, lifecycle_repeat_updated.
           f_equal. symmetry. apply Set_has_In. exact Is.
        -- assert (Zu : cnt r (updated d2) = 0).
           { destruct (cnt r (updated d2)) eqn:Cu; [reflexivity|].
             destruct (U2 r) as [Is _]; [lia | contradiction]. }
           assert (Or : cnt r (removed d2) = 1).
           { assert (0 < cnt r (removed d2)) by (apply Rm2; auto). lia. }
           rewrite Zu, Or. simpl.
           f_equal. symmetry. apply Set_has_false. exact Ns.
      * apply Set_has_false in E.
        assert (G : Map_get r (recordCaches (watcher s)) = None)
          by (apply Map_get_None; exact E).
        assert (Zu : cnt r (updated d2) = 0).
        { destruct (cnt r (updated d2)) eqn:Cu; [reflexivity|].
          destruct (U2 r) as [_ (rc & G' & _)]; [lia | congruence]. }
        assert (Zr : cnt r (removed d2) = 0).
        { destruct (cnt r (removed d2)) eqn:Cr; [reflexivity|].
          destruct (proj1 (Rm2 r)); [lia | contradiction]. }
        rewrite Zu, Zr. simpl. rewrite app_nil_r.
        destruct (in_dec Nat.eq_dec r (store (world s) c)) as [Is|Ns].
        -- rewrite (Nw2 r Is G). simpl.
           f_equal. symmetry. apply Set_has_In. exact Is.
        -- assert (Za : cnt r (added d2) = 0).
           { destruct (cnt r (added d2)) eqn:Ca; [reflexivity|].
             destruct (A2 r) as [Is _]; [lia | contradiction]. }
           rewrite Za. simpl.
           f_equal. symmetry. apply Set_has_false. exact Ns.
    + exact B.
    + apply (valueForTag_le (world s) (arrayDeps (world s) c caches2)).
      exact B.
    + intros ts [= <-]. left. reflexivity.
    + intros _. exact K2.
Qed.

Lemma RunInv_run steps : forall s, RunInv s -> RunInv (run steps s).
Proof.
  unfold run. induction steps as [|a steps IH]; intros s I; [exact I|].
  simpl. apply IH. destruct a; [apply RunInv_mutation | apply RunInv_revalidate];
    exact I.
Qed.
End RunFacts.

Section UnionFacts.
Context {H : Hooks}.

Lemma run_app xs ys s : run (xs ++ ys) s = run ys (run xs s).
Proof. unfold run. apply fold_left_app. Qed.

Lemma world_step s a :
  world (step s a) = match a with
                     | mutation m => mutate m (world s)
                     | revalidate => world s
                     end.
Proof.
  destruct a; simpl; [reflexivity|].
  destruct (RecordsWatcher_revalidate (world s) (watcher s)). reflexivity.
Qed.

Lemma snapshots_app c xs : forall ys s,
  snapshots c (xs ++ ys) (world s) =
  snapshots c xs (world s) ++ snapshots c ys (world (run xs s)).
Proof.
  induction xs as [|a xs IH]; intros ys s; [reflexivity|].
  change (run (a :: xs) s) with (run xs (step s a)).
  specialize (IH ys (step s a)). rewrite world_step in IH.
  destruct a; simpl; rewrite IH; reflexivity.
Qed.

Lemma added_iff_everPresent contents c k steps r :
  0 < times Added (reports r (trace (run steps (start contents c k)))) <->
  everPresent c steps (initialWorld contents) r.
Proof.
  unfold everPresent.
  induction steps as [|a steps IH] using rev_ind.
  - simpl. unfold times. simpl. split; [lia | intros (l & [] & _)].
  - rewrite run_app.
    change (initialWorld contents) with (world (start contents c k)) in *.
    rewrite snapshots_app.
    pose proof (RunInv_run c steps _ (RunInv_start c contents k)) as I.
    set (s := run steps (start contents c k)) in *.
    destruct a as [m|].
    + simpl. rewrite app_nil_r. exact IH.
    + pose proof (RunInv_revalidate c s I) as I'.
      change (run [revalidate] s) with (step s revalidate) in *.
      pose proof (world_step s revalidate) as W. simpl in W.
      pose proof (revalidate_valid (world s) (watcher s)) as Val'.
      pose proof (revalidate_out (world s) (watcher s)) as Out.
      unfold step in *.
      destruct (RecordsWatcher_revalidate (world s) (watcher s))
        as [rw' out] eqn:E.
      simpl in I', W, Val', Out |- *.
      rewrite reports_app, times_app. split.
      * intros Pos.
        destruct (times Added (reports r (trace s))) eqn:Old.
        -- exists (store (world s) c). split; [apply in_or_app; simpl; auto|].
           rewrite Out in Pos.
           destruct (isValid (world s) (recordArrayCache (watcher s))) eqn:Val;
             [unfold times in Pos; simpl in Pos; lia|].
           destruct (times_dispatch r (rw_callbacks (watcher s))
                       (diffOf (world s) (watcher s))) as (Ea & _).
           rewrite Ea in Pos. unfold diffOf in Pos. rewrite Val in Pos.
           rewrite <- (ri_records c s I).
           apply (cs_added _ _ _ _
                    (collect_spec (world s) (rw_records (watcher s))
                       (recordCaches (watcher s)) (beginTrackFrame idle))).
           simpl in Pos. exact Pos.
        -- destruct (proj1 IH) as (l & Il & Ir); [lia|].
           exists l. split; [apply in_or_app; auto | exact Ir].
      * intros (l & Il & Ir). apply in_app_or in Il.
        destruct Il as [Il|[<-|[]]].
        -- assert (0 < times Added (reports r (trace s)))
             by (apply IH; eauto). lia.
        -- pose proof (ri_sync c _ I' Val' r) as Sy. simpl in Sy.
           apply Sy in Ir. apply Set_has_In in Ir.
           pose proof (ri_life c _ I' r) as Li. simpl in Li.
           rewrite Ir, reports_app in Li.
           apply lifecycle_counts in Li. rewrite times_app in Li.
           simpl in Li. lia.
Qed.
End UnionFacts.

(** C1, as amended. Over any run of additions, removals, field changes and
    revalidations of one watcher: the records ever reported added are those
    present in the array at some revalidation; the reports about one record,
    in order, follow its life (added, then updated any number of times, then
    removed, then possibly added again); hence a record is never reported
    updated before added, is reported removed only after an added report that
    no earlier removed report has used up, and is never reported removed more
    often than added. *)
Theorem reports_follow_lifecycle {H : Hooks}
    (contents : Coll -> list RecordId) (c : Coll) (k : Caller)
    (steps : list Step) :
  let s := run steps (start contents c k) in
  (forall r, 0 < times Added (reports r (trace s)) <->
             exists l, In l (snapshots c steps (initialWorld contents))
                       /\ In r l)
  /\ (forall r, lifecycle false (reports r (trace s)) =
                Some (Set_has r (Map_keys (recordCaches (watcher s)))))
  /\ (forall r, times Removed (reports r (trace s))
                <= times Added (reports r (trace s)))
  /\ (forall r l1 l2, reports r (trace s) = l1 ++ Updated :: l2 ->
                      0 < times Added l1)
  /\ (forall r l1 l2, reports r (trace s) = l1 ++ Removed :: l2 ->
                      times Removed l1 < times Added l1).
Proof.
  cbv zeta.
  pose proof (RunInv_run c steps _ (RunInv_start c contents k)) as I.
  pose proof (ri_life c _ I) as L.
  split; [|split; [|split; [|split]]].
  - intros r. apply added_iff_everPresent.
  - exact L.
  - intros r. pose proof (lifecycle_counts _ _ _ (L r)) as C.
    destruct (Set_has r _); lia.
  - intros r l1 l2 E.
    exact (lifecycle_updated_after_added _ l1 l2 _ (L r) E).
  - intros r l1 l2 E.
    exact (lifecycle_removed_after_added _ l1 l2 _ (L r) E).
Qed.

(** C1 as stated fails: the record 2 is reported removed twice (and added
    twice). *)
Lemma removed_reported_twice :
  ~ (forall r,
       times Removed
         (reports r (trace (@run sampleHooks leavesTwice
                              (start sampleContents 0 7)))) <= 1).
Proof.
  intros C. specialize (C 2). vm_compute in C. lia.
Qed.

(** * The coordinator *)

Section CoordinatorFacts.
Context {H : Hooks}.

Lemma revalidate_release w rw :
  rw_release (fst (RecordsWatcher_revalidate w rw)) = rw_release rw.
Proof.
  destruct (isValid w (recordArrayCache rw)) eqn:Val.
  - rewrite revalidate_memo by exact Val. reflexivity.
  - rewrite revalidate_run by exact Val. reflexivity.
Qed.

Lemma watchRecords_known w modelName k a rw :
  Map_get (getRecords modelName) (recordsWatchers a) = Some rw ->
  watchRecords w modelName k a = (rw_release rw, a).
Proof. intros G. unfold watchRecords. rewrite G. reflexivity. Qed.

(** After [watchRecords] the array has a watcher, and its release function
    is the one that was returned. *)
Lemma watchRecords_registers w modelName k a :
  exists rw,
    Map_get (getRecords modelName)
            (recordsWatchers (snd (watchRecords w modelName k a)))
      = Some rw
    /\ rw_release rw = fst (watchRecords w modelName k a).
Proof.
  unfold watchRecords.
  destruct (Map_get (getRecords modelName) (recordsWatchers a)) as [rw|] eqn:G.
  - exists rw. simpl. auto.
  - pose proof (revalidate_release w
      (new_RecordsWatcher (getRecords modelName) k
         (releaseRecords
            (nextId (if Map_size (recordsWatchers a) =? 0
                     then set_listeners (backburner_on (listeners a)) a
                     else a))
            (getRecords modelName)))) as R.
    destruct (RecordsWatcher_revalidate _ _) as [rw' out].
    exists rw'. simpl in R |- *. rewrite Map_get_set, Nat.eqb_refl. auto.
Qed.
End CoordinatorFacts.

(** C9. When the array that the model name resolves to already has a
    registered RecordsWatcher, [watchRecords] returns that watcher's release
    function and leaves the adapter as it was: no watcher is created, nothing
    is revalidated, no callback is invoked, and whatever happens afterwards
    happens as if the call had not been made, so the callbacks handed over
    are never invoked. If the watcher was registered by an earlier
    [watchRecords] call, the function returned is the very one that call
    returned. *)
Theorem watchRecords_again {H : Hooks} (policy : OffPolicy) (w : World)
    (modelName : ModelName) (k : Caller) (a : DataAdapter)
    (rw : RecordsWatcher) :
  Map_get (getRecords modelName) (recordsWatchers a) = Some rw ->
  watchRecords w modelName k a = (rw_release rw, a)
  /\ (forall xs,
        play policy xs {| sys_world := w;
                          sys_adapter :=
                            snd (watchRecords w modelName k a) |}
        = play policy xs {| sys_world := w; sys_adapter := a |})
  /\ (forall w0 modelName0 k0 a0,
        getRecords modelName0 = getRecords modelName ->
        a = snd (watchRecords w0 modelName0 k0 a0) ->
        fst (watchRecords w modelName k a)
        = fst (watchRecords w0 modelName0 k0 a0)).
Proof.
  intros G. pose proof (watchRecords_known w modelName k a rw G) as E.
  split; [exact E|]. split.
  - intros xs. rewrite E. reflexivity.
  - intros w0 modelName0 k0 a0 En Ea. rewrite E. simpl.
    destruct (watchRecords_registers w0 modelName0 k0 a0)
      as (rw0 & G0 & R0).
    rewrite <- Ea, En, G in G0. injection G0 as <-. exact R0.
Qed.

Lemma watchRecords_again_witness :
  let a := snd (@watchRecords sampleHooks sampleWorld 0 7 init) in
  fst (@watchRecords sampleHooks sampleWorld 0 8 a)
    = releaseRecords 0 0
  /\ snd (@watchRecords sampleHooks sampleWorld 0 8 a) = a
  /\ calls a = [recordsAdded 7 [{| object := 1 |}; {| object := 2 |}]].
Proof.
  cbv zeta.
  destruct (@watchRecords_registers sampleHooks sampleWorld 0 7 init)
    as (rw & G & R).
  destruct (@watchRecords_again sampleHooks OffAll sampleWorld 0 8 _ rw G)
    as (E & _).
  rewrite E. simpl fst; simpl snd. rewrite R.
  split; [reflexivity|]. split; reflexivity.
Defined.

(** ** Registries of a running adapter *)

Lemma fold_left_inv (A B : Type) (P : A -> Prop) (f : A -> B -> A)
    (l : list B) :
  (forall a b, P a -> P (f a b)) -> forall a, P a -> P (fold_left f l a).
Proof.
  intros St. induction l as [|b l IH]; simpl; intros a Pa; [exact Pa|].
  apply IH, St, Pa.
Qed.

Lemma Map_get_In (V : Type) (k : nat) (x : V) (m : JSMap V) :
  Map_get k m = Some x -> In (k, x) m.
Proof.
  induction m as [|[k' x'] m IH]; simpl; [discriminate|].
  destruct (k =? k') eqn:E.
  - apply Nat.eqb_eq in E. intros [= <-]. subst. auto.
  - auto.
Qed.

Lemma In_Map_set (V : Type) (k k' : nat) (x x' : V) (m : JSMap V) :
  In (k', x') (Map_set k x m) -> (k', x') = (k, x) \/ In (k', x') m.
Proof.
  induction m as [|[j y] m IH]; simpl.
  - intros [E|[]]. auto.
  - destruct (k =? j); simpl; intros [E|I]; auto.
    destruct (IH I); auto.
Qed.

Lemma In_Map_delete (V : Type) (k : nat) (e : nat * V) (m : JSMap V) :
  In e (Map_delete k m) -> In e m.
Proof. unfold Map_delete. rewrite filter_In. tauto. Qed.

Lemma Map_delete_twice (V : Type) (k : nat) (m : JSMap V) :
  Map_delete k (Map_delete k m) = Map_delete k m.
Proof.
  apply Map_delete_absent, Map_delete_gone.
Qed.

Lemma revalidateAll_keys (W : Type) (reval : W -> W * list Event)
    (m : JSMap W) :
  Map_keys (fst (revalidateAll reval m)) = Map_keys m.
Proof.
  induction m as [|[c x] m IH]; simpl; [reflexivity|].
  destruct (reval x) as [x' out], (revalidateAll reval m) as [m' out'].
  simpl in *. congruence.
Qed.

Lemma In_revalidateAll (W : Type) (reval : W -> W * list Event)
    (m : JSMap W) (c : nat) (x' : W) :
  In (c, x') (fst (revalidateAll reval m)) ->
  exists x, In (c, x) m /\ x' = fst (reval x).
Proof.
  induction m as [|[c0 x] m IH]; simpl; [tauto|].
  destruct (reval x) as [y out] eqn:E, (revalidateAll reval m) as [m' out'].
  simpl in *. intros [[= <- <-]|I].
  - exists x. rewrite E. auto.
  - destruct (IH I) as (x0 & I0 & E0). eauto.
Qed.

Section RegistryFacts.
Context {H : Hooks}.
Variable policy : OffPolicy.

(** What every adapter reached from [init] satisfies: one watcher of each
    kind per array at most, and each watcher's release function is the
    closure made for its own array. *)
Record AdapterInv (a : DataAdapter) : Prop := {
  ai_records : NoDup (Map_keys (recordsWatchers a));
  ai_types : NoDup (Map_keys (typeWatchers a));
  ai_rrelease : forall c rw, In (c, rw) (recordsWatchers a) ->
                  exists id, rw_release rw = releaseRecords id c;
  ai_trelease : forall c tw, In (c, tw) (typeWatchers a) ->
                  exists id, tw_release tw = releaseType id c
}.

Lemma AdapterInv_init : AdapterInv init.
Proof. constructor; simpl; try constructor; tauto. Qed.

Lemma tw_revalidate_release w tw :
  tw_release (fst (TypeWatcher_revalidate w tw)) = tw_release tw.
Proof.
  destruct (isValid w (tw_cache tw)) eqn:Val.
  - rewrite tw_revalidate_memo by exact Val. reflexivity.
  - rewrite tw_revalidate_run by exact Val. reflexivity.
Qed.

(** The size a release function tests before it calls [off]. *)
Definition tested_size (f : ReleaseFn) (a : DataAdapter) : nat :=
  match f with
  | releaseRecords _ _ => Map_size (recordsWatchers a)
  | releaseType _ _ => Map_size (typeWatchers a)
  end.

(** A release function throws exactly when it finds one watcher in its
    registry and [flushWatchers] is not registered; the adapter is then as it
    was. *)
Lemma try_release_throws f a :
  throws (try_release policy f a)
  = (tested_size f a =? 1) && (listeners a =? 0).
Proof.
  destruct f as [id c|id c]; simpl.
  - destruct (Map_size (recordsWatchers a) =? 1); [|reflexivity].
    unfold off. destruct (listeners a); reflexivity.
  - destruct (Map_size (typeWatchers a) =? 1); [|reflexivity].
    unfold off. destruct (listeners a); reflexivity.
Qed.

Lemma try_release_Throw f a :
  throws (try_release policy f a) = true -> try_release policy f a = Throw a.
Proof.
  destruct f as [id c|id c]; simpl.
  - destruct (Map_size (recordsWatchers a) =? 1); [|discriminate].
    unfold off. destruct (backburner_off policy (listeners a)); simpl;
      [discriminate | reflexivity].
  - destruct (Map_size (typeWatchers a) =? 1); [|discriminate].
    unfold off. destruct (backburner_off policy (listeners a)); simpl;
      [discriminate | reflexivity].
Qed.

Lemma call_release_thrown f a :
  throws (try_release policy f a) = true -> call_release policy f a = a.
Proof.
  intros T. unfold call_release. rewrite try_release_Throw by exact T.
  reflexivity.
Qed.

(** A release function that returns has deleted the entry of its array. *)
Lemma call_release_returned f a :
  throws (try_release policy f a) = false ->
  recordsWatchers (call_release policy f a) =
    match f with
    | releaseRecords _ c => Map_delete c (recordsWatchers a)
    | releaseType _ _ => recordsWatchers a
    end
  /\ typeWatchers (call_release policy f a) =
    match f with
    | releaseRecords _ _ => typeWatchers a
    | releaseType _ c => Map_delete c (typeWatchers a)
    end.
Proof.
  unfold call_release. destruct f as [id c|id c]; simpl.
  - destruct (Map_size (recordsWatchers a) =? 1); [|auto].
    unfold off. destruct (backburner_off policy (listeners a)); simpl;
      [auto | discriminate].
  - destruct (Map_size (typeWatchers a) =? 1); [|auto].
    unfold off. destruct (backburner_off policy (listeners a)); simpl;
      [auto | discriminate].
Qed.

(** Thrown or returned, a release function leaves each registry as it was or
    without the entry of its array. *)
Lemma call_release_registries f a :
  (recordsWatchers (call_release policy f a) = recordsWatchers a
   /\ typeWatchers (call_release policy f a) = typeWatchers a)
  \/ (recordsWatchers (call_release policy f a) =
        match f with
        | releaseRecords _ c => Map_delete c (recordsWatchers a)
        | releaseType _ _ => recordsWatchers a
        end
      /\ typeWatchers (call_release policy f a) =
        match f with
        | releaseRecords _ _ => typeWatchers a
        | releaseType _ c => Map_delete c (typeWatchers a)
        end).
Proof.
  destruct (throws (try_release policy f a)) eqn:T.
  - left. rewrite call_release_thrown by exact T. auto.
  - right. apply call_release_returned, T.
Qed.

(** What holds after each callback holds after a loop over them, however it
    ends. *)
Lemma forEach_call_inv (X : Type) (P : DataAdapter -> Prop)
    (fn : X -> DataAdapter -> Completion) :
  (forall x a, P a -> P (after (fn x a))) ->
  forall l c, P (after c) ->
    P (after (fold_left (fun c x => andThen c (fn x)) l c)).
Proof.
  intros Step. induction l as [|x l IH]; intros c Pc; [exact Pc|].
  simpl. apply IH. destruct c as [a|a]; simpl in *; auto.
Qed.

Lemma AdapterInv_ext a a' :
  recordsWatchers a' = recordsWatchers a ->
  typeWatchers a' = typeWatchers a ->
  AdapterInv a -> AdapterInv a'.
Proof.
  intros Er Et [N1 N2 R1 R2].
  constructor; rewrite ?Er, ?Et; assumption.
Qed.

Lemma AdapterInv_release f a :
  AdapterInv a -> AdapterInv (call_release policy f a).
Proof.
  intros Inv. pose proof Inv as [N1 N2 R1 R2].
  destruct (call_release_registries f a) as [[Er Et]|[Er Et]];
    [apply (AdapterInv_ext a); assumption|].
  constructor; rewrite ?Er, ?Et; destruct f as [id c|id c];
    try assumption.
  - rewrite Map_keys_delete. apply NoDup_filter, N1.
  - rewrite Map_keys_delete. apply NoDup_filter, N2.
  - intros c' rw I. apply R1. eapply In_Map_delete, I.
  - intros c' tw I. apply R2. eapply In_Map_delete, I.
Qed.

Lemma AdapterInv_watchRecords w modelName k a :
  AdapterInv a -> AdapterInv (snd (watchRecords w modelName k a)).
Proof.
  intros I. pose proof I as [N1 N2 R1 R2]. unfold watchRecords.
  destruct (Map_get (getRecords modelName) (recordsWatchers a)); [exact I|].
  set (a1 := if Map_size (recordsWatchers a) =? 0
             then set_listeners (backburner_on (listeners a)) a else a).
  assert (E1 : recordsWatchers a1 = recordsWatchers a
               /\ typeWatchers a1 = typeWatchers a)
    by (unfold a1; destruct (Map_size (recordsWatchers a) =? 0); auto).
  destruct E1 as [Er Et].
  pose proof (revalidate_release w
                (new_RecordsWatcher (getRecords modelName) k
                   (releaseRecords (nextId a1) (getRecords modelName)))) as Rl.
  destruct (RecordsWatcher_revalidate _ _) as [rw' out].
  simpl in Rl |- *. constructor; simpl; rewrite ?Er, ?Et; try assumption.
  - apply NoDup_keys_set, N1.
  - intros c rw In1. apply In_Map_set in In1.
    destruct In1 as [[= -> ->]|In1]; [eauto | auto].
Qed.

Lemma AdapterInv_observeModelType w modelName k a :
  AdapterInv a -> AdapterInv (snd (observeModelType w modelName k a)).
Proof.
  intros I. pose proof I as [N1 N2 R1 R2]. unfold observeModelType.
  destruct (Map_get (getRecords modelName) (typeWatchers a)); [exact I|].
  set (a1 := if Map_size (typeWatchers a) =? 0
             then set_listeners (backburner_on (listeners a)) a else a).
  assert (E1 : recordsWatchers a1 = recordsWatchers a
               /\ typeWatchers a1 = typeWatchers a)
    by (unfold a1; destruct (Map_size (typeWatchers a) =? 0); auto).
  destruct E1 as [Er Et].
  pose proof (tw_revalidate_release w
                (new_TypeWatcher (getRecords modelName) k modelName
                   (releaseType (nextId a1) (getRecords modelName)))) as Rl.
  destruct (TypeWatcher_revalidate _ _) as [tw' out].
  simpl in Rl |- *. constructor; simpl; rewrite ?Er, ?Et; try assumption.
  - apply NoDup_keys_set, N2.
  - intros c tw In1. apply In_Map_set in In1.
    destruct In1 as [[= -> ->]|In1]; [eauto | auto].
Qed.

Lemma AdapterInv_watchModelTypes w k a :
  AdapterInv a -> AdapterInv (snd (watchModelTypes w k a)).
Proof.
  intros I. unfold watchModelTypes.
  assert (F : forall l acc,
             AdapterInv (snd acc) ->
             AdapterInv
               (snd (fold_left
                  (fun (acc : list WrappedType * list ReleaseFn * DataAdapter)
                       type =>
                     let '(sent, methods, a) := acc in
                     let '(wrapped, _) := wrapModelType w type idle in
                     let '(f, a') := observeModelType w type k a in
                     (sent ++ [wrapped], methods ++ [f], a'))
                  l acc))).
  { induction l as [|t l IH]; intros [[sent methods] a0] I0; [exact I0|].
    simpl fold_left. apply IH.
    pose proof (AdapterInv_observeModelType w t k a0 I0) as I1.
    simpl in I0. destruct (observeModelType w t k a0). exact I1. }
  specialize (F getModelTypes ([], [], a) I).
  destruct (fold_left _ getModelTypes ([], [], a)) as [[sent methods] a1].
  simpl in F |- *. eapply AdapterInv_ext; [| |exact F]; reflexivity.
Qed.

Lemma AdapterInv_typesRelease t a :
  AdapterInv a -> AdapterInv (call_typesRelease policy t a).
Proof.
  intros I. unfold call_typesRelease, try_typesRelease, forEach_call.
  pose proof (forEach_call_inv _ AdapterInv (try_release policy)
                (fun f a0 I0 => AdapterInv_release f a0 I0)
                (tr_releaseMethods t) (Normal a) I) as I1.
  destruct (fold_left _ (tr_releaseMethods t) (Normal a)) as [a1|a1];
    simpl in *; [|exact I1].
  apply (AdapterInv_ext a1); [reflexivity | reflexivity | exact I1].
Qed.

Lemma AdapterInv_flushWatchers w a :
  AdapterInv a -> AdapterInv (flushWatchers w a).
Proof.
  intros [N1 N2 R1 R2]. unfold flushWatchers.
  pose proof (revalidateAll_keys _ (TypeWatcher_revalidate w) (typeWatchers a))
    as Kt.
  pose proof (In_revalidateAll _ (TypeWatcher_revalidate w) (typeWatchers a))
    as It.
  destruct (revalidateAll (TypeWatcher_revalidate w) (typeWatchers a))
    as [tws out1].
  simpl recordsWatchers.
  pose proof (revalidateAll_keys _ (RecordsWatcher_revalidate w)
                (recordsWatchers a)) as Kr.
  pose proof (In_revalidateAll _ (RecordsWatcher_revalidate w)
                (recordsWatchers a)) as Ir.
  destruct (revalidateAll (RecordsWatcher_revalidate w) (recordsWatchers a))
    as [rws out2].
  simpl in Kt, It, Kr, Ir. constructor; simpl.
  - rewrite Kr. exact N1.
  - rewrite Kt. exact N2.
  - intros c rw I. destruct (Ir c rw I) as (rw0 & I0 & ->).
    rewrite revalidate_release. eauto.
  - intros c tw I. destruct (It c tw I) as (tw0 & I0 & ->).
    rewrite tw_revalidate_release. eauto.
Qed.

Lemma AdapterInv_willDestroy a : AdapterInv a -> AdapterInv (willDestroy policy a).
Proof.
  intros I. unfold willDestroy, try_willDestroy, forEach_call.
  pose proof (forEach_call_inv _ AdapterInv
                (fun e => try_release policy (tw_release (snd e)))
                (fun e a0 I0 => AdapterInv_release _ a0 I0)
                (typeWatchers a) (Normal a) I) as I1.
  destruct (fold_left _ (typeWatchers a) (Normal a)) as [a1|a1];
    simpl in *; [|exact I1].
  pose proof (forEach_call_inv _ AdapterInv
                (fun e => try_release policy (rw_release (snd e)))
                (fun e a0 I0 => AdapterInv_release _ a0 I0)
                (recordsWatchers a1) (Normal a1) I1) as I2.
  destruct (fold_left _ (recordsWatchers a1) (Normal a1)) as [a2|a2];
    simpl in *; [|exact I2].
  unfold Array_forEach.
  apply fold_left_inv with (P := fun c => AdapterInv (after c));
    [|exact I2].
  intros c i Ic. destruct (nth_error (releaseMethods (after c)) i);
    [|exact Ic].
  destruct c as [a3|a3]; simpl in *; [|exact Ic].
  apply AdapterInv_typesRelease, Ic.
Qed.

Lemma AdapterInv_play xs : forall s,
  AdapterInv (sys_adapter s) -> AdapterInv (sys_adapter (play policy xs s)).
Proof.
  unfold play. induction xs as [|x xs IH]; intros s I; [exact I|].
  simpl. apply IH. destruct x; simpl.
  - apply AdapterInv_watchModelTypes, I.
  - apply AdapterInv_watchRecords, I.
  - apply AdapterInv_release, I.
  - apply AdapterInv_typesRelease, I.
  - exact I.
  - unfold fire_end. generalize (listeners (sys_adapter s)) as n.
    induction n as [|n IHn]; simpl; [exact I|].
    apply AdapterInv_flushWatchers, IHn.
  - apply AdapterInv_willDestroy, I.
Qed.
End RegistryFacts.




Lemma Map_size_set (V : Type) (k : nat) (x : V) (m : JSMap V) :
  Map_size (Map_set k x m) <= S (Map_size m).
Proof.
  unfold Map_size. induction m as [|[k' x'] m IH]; simpl; [lia|].
  destruct (k =? k'); simpl; lia.
Qed.

Lemma watchRecords_size {H : Hooks} w modelName k a :
  Map_size (recordsWatchers (snd (watchRecords w modelName k a)))
  <= S (Map_size (recordsWatchers a)).
Proof.
  unfold watchRecords.
  destruct (Map_get (getRecords modelName) (recordsWatchers a));
    [simpl; lia|].
  destruct (RecordsWatcher_revalidate _ _) as [rw' out]. simpl.
  destruct (Map_size (recordsWatchers a) =? 0); simpl; apply Map_size_set.
Qed.

(** C3 fails on the code. The two [watchRecords] calls for one array hand
    both callers the same release function. With a second array watched, the
    second caller's release finds one watcher left, that of the other array,
    and calls [off]: the other array stays registered without subscription,
    and its own release function throws and leaves the adapter as it is. Two
    further callers then watch a third array: the handle of the second alone
    would return, but once the first has released, it throws. *)
Theorem release_spoils_other_handle (policy : OffPolicy) :
  let s1 := @play sampleHooks policy [doWatchRecords 0 7]
                  (boot sampleContents) in
  let f := fst (@watchRecords sampleHooks sampleWorld 0 7 init) in
  let g := fst (@watchRecords sampleHooks (sys_world s1) 0 8
                  (sys_adapter s1)) in
  let s2 := @play sampleHooks policy [doWatchRecords 0 8] s1 in
  let h := fst (@watchRecords sampleHooks (sys_world s2) 1 9
                  (sys_adapter s2)) in
  let s3 := @play sampleHooks policy
                  [doWatchRecords 1 9; doRelease f; doRelease g] s2 in
  let f2 := fst (@watchRecords sampleHooks (sys_world s3) 2 10
                   (sys_adapter s3)) in
  let s4 := @play sampleHooks policy [doWatchRecords 2 10] s3 in
  let g2 := fst (@watchRecords sampleHooks (sys_world s4) 2 11
                   (sys_adapter s4)) in
  let a5 := sys_adapter (@play sampleHooks policy [doWatchRecords 2 11] s4) in
  (g = f /\ Map_keys (recordsWatchers (sys_adapter s2)) = [0]
   /\ Map_keys (recordsWatchers (sys_adapter s3)) = [1]
   /\ subscribed (sys_adapter s3) = false
   /\ try_release policy h (sys_adapter s3) = Throw (sys_adapter s3))
  /\ (g2 = f2 /\ Map_keys (recordsWatchers a5) = [1; 2]
      /\ throws (try_release policy g2 a5) = false
      /\ Map_keys (recordsWatchers (call_release policy g2 a5)) = [1]
      /\ throws (try_release policy f2 a5) = false
      /\ throws (try_release policy g2 (call_release policy f2 a5)) = true).
Proof.
  destruct policy; vm_compute; repeat split; reflexivity.
Qed.



(** C4 fails on the code. A release function that is called a second time
    while one other array is still watched withdraws the subscription, under
    either policy of the event source; and when [off] withdraws every
    registration of the callback, releasing the only RecordsWatcher does so
    although a TypeWatcher is still registered, which then misses the next
    batch. *)
Theorem subscription_lost_while_watching (policy : OffPolicy) :
  (let f := fst (@watchRecords sampleHooks sampleWorld 0 7 init) in
   let a := sys_adapter
              (@play sampleHooks policy
                 [doWatchRecords 0 7; doWatchRecords 1 8;
                  doRelease f; doRelease f] (boot sampleContents)) in
   Map_keys (recordsWatchers a) = [1]
   /\ watching a = true /\ subscribed a = false)
  /\ (let s1 := @play sampleHooks OffAll [doWatchModelTypes 5]
                      (boot sampleContents) in
      let f := fst (@watchRecords sampleHooks (sys_world s1) 0 7
                      (sys_adapter s1)) in
      let s2 := @play sampleHooks OffAll [doWatchRecords 0 7; doRelease f] s1 in
      let s3 := @play sampleHooks OffAll
                      [doMutate (pushObject 0 3); doEnd] s2 in
      Map_keys (typeWatchers (sys_adapter s2)) = [0]
      /\ watching (sys_adapter s2) = true
      /\ subscribed (sys_adapter s2) = false
      /\ calls (sys_adapter s3) = calls (sys_adapter s2)).
Proof.
  split.
  - destruct policy; vm_compute; repeat split; reflexivity.
  - vm_compute. repeat split; reflexivity.
Qed.

(** C8 fails on the code. With two release callbacks of [watchModelTypes]
    pending, [willDestroy] empties both registries and calls the first
    callback, which removes itself from [releaseMethods] while the loop is
    running; the second callback is then never reached and stays in the
    list. *)
Theorem willDestroy_skips_pending_release (policy : OffPolicy) :
  let s := @play sampleHooks policy
                 [doWatchModelTypes 5; doWatchModelTypes 6]
                 (boot sampleContents) in
  let a := willDestroy policy (sys_adapter s) in
  releaseMethods (sys_adapter s)
    = [ {| tr_id := 1; tr_releaseMethods := [releaseType 0 0] |};
        {| tr_id := 2; tr_releaseMethods := [releaseType 0 0] |} ]
  /\ recordsWatchers a = [] /\ typeWatchers a = []
  /\ releaseMethods a
     = [ {| tr_id := 2; tr_releaseMethods := [releaseType 0 0] |} ].
Proof.
  destruct policy; vm_compute; repeat split; reflexivity.
Qed.

(** ** What shutdown and repeated release do to the registries *)

Section ShutdownFacts.
Context {H : Hooks}.
Variable policy : OffPolicy.

Lemma forEach_call_Throw (X : Type) (fn : X -> DataAdapter -> Completion)
    (l : list X) (a : DataAdapter) :
  fold_left (fun c x => andThen c (fn x)) l (Throw a) = Throw a.
Proof. induction l as [|x l IH]; simpl; auto. Qed.

Lemma forEach_call_cons (X : Type) (fn : X -> DataAdapter -> Completion)
    (x : X) (l : list X) (a : DataAdapter) :
  forEach_call fn (x :: l) a
  = match fn x a with
    | Normal a1 => forEach_call fn l a1
    | Throw a1 => Throw a1
    end.
Proof.
  unfold forEach_call. simpl. destruct (fn x a) as [a1|a1]; [reflexivity|].
  apply forEach_call_Throw.
Qed.

Lemma Map_delete_head (V : Type) (c : nat) (x : V) (L : JSMap V) :
  ~ In c (Map_keys L) -> Map_delete c ((c, x) :: L) = L.
Proof.
  intros N. unfold Map_delete. simpl. rewrite Nat.eqb_refl. simpl.
  apply (Map_delete_absent _ c L N).
Qed.

Lemma try_release_type id c a :
  try_release policy (releaseType id c) a
  = if Map_size (typeWatchers a) =? 1
    then match backburner_off policy (listeners a) with
         | Some n => Normal (set_typeWatchers (Map_delete c (typeWatchers a))
                                              (set_listeners n a))
         | None => Throw a
         end
    else Normal (set_typeWatchers (Map_delete c (typeWatchers a)) a).
Proof.
  simpl. destruct (Map_size (typeWatchers a) =? 1); [|reflexivity].
  unfold off. destruct (backburner_off policy (listeners a)); reflexivity.
Qed.

Lemma try_release_records id c a :
  try_release policy (releaseRecords id c) a
  = if Map_size (recordsWatchers a) =? 1
    then match backburner_off policy (listeners a) with
         | Some n => Normal (set_recordsWatchers
                               (Map_delete c (recordsWatchers a))
                               (set_listeners n a))
         | None => Throw a
         end
    else Normal (set_recordsWatchers (Map_delete c (recordsWatchers a)) a).
Proof.
  simpl. destruct (Map_size (recordsWatchers a) =? 1); [|reflexivity].
  unfold off. destruct (backburner_off policy (listeners a)); reflexivity.
Qed.

(** Releasing the TypeWatchers one after the other, as the first loop of
    [willDestroy] does: only the release of the last one calls [off]; where
    that throws, the last watcher stays. *)
Lemma drain_types : forall L a,
  typeWatchers a = L -> NoDup (Map_keys L) ->
  (forall c tw, In (c, tw) L -> exists id, tw_release tw = releaseType id c) ->
  let c := forEach_call (fun e => try_release policy (tw_release (snd e)))
                        L a in
  match L, backburner_off policy (listeners a) with
  | [], _ => c = Normal a
  | _ :: _, Some n => c = Normal (set_typeWatchers [] (set_listeners n a))
  | _ :: _, None => exists e, c = Throw (set_typeWatchers [e] a)
  end.
Proof.
  induction L as [|[c tw] L IH]; intros a E ND Rel; [reflexivity|].
  cbv zeta. rewrite forEach_call_cons. simpl snd.
  destruct (Rel c tw) as [id Ef]; [simpl; auto|]. rewrite Ef.
  inversion ND as [|? ? Nc ND']; subst.
  rewrite try_release_type, E, Map_delete_head by exact Nc.
  destruct L as [|e' L'].
  - simpl Map_size. simpl Nat.eqb. cbv iota.
    destruct (backburner_off policy (listeners a)) as [n|].
    + reflexivity.
    + exists (c, tw). destruct a; simpl in *; subst; reflexivity.
  - change (Map_size ((c, tw) :: e' :: L') =? 1) with false. cbv iota.
    specialize (IH (set_typeWatchers (e' :: L') a) eq_refl ND').
    cbv zeta in IH. simpl listeners in IH.
    destruct (backburner_off policy (listeners a)) as [n|].
    + rewrite IH by (intros; apply Rel; simpl; auto).
      destruct a; reflexivity.
    + destruct IH as [e0 IH]; [intros; apply Rel; simpl; auto|].
      exists e0. rewrite IH. destruct a; reflexivity.
Qed.

(** The same for the RecordsWatchers, the second loop. *)
Lemma drain_records : forall L a,
  recordsWatchers a = L -> NoDup (Map_keys L) ->
  (forall c rw, In (c, rw) L ->
                exists id, rw_release rw = releaseRecords id c) ->
  let c := forEach_call (fun e => try_release policy (rw_release (snd e)))
                        L a in
  match L, backburner_off policy (listeners a) with
  | [], _ => c = Normal a
  | _ :: _, Some n => c = Normal (set_recordsWatchers [] (set_listeners n a))
  | _ :: _, None => exists e, c = Throw (set_recordsWatchers [e] a)
  end.
Proof.
  induction L as [|[c rw] L IH]; intros a E ND Rel; [reflexivity|].
  cbv zeta. rewrite forEach_call_cons. simpl snd.
  destruct (Rel c rw) as [id Ef]; [simpl; auto|]. rewrite Ef.
  inversion ND as [|? ? Nc ND']; subst.
  rewrite try_release_records, E, Map_delete_head by exact Nc.
  destruct L as [|e' L'].
  - simpl Map_size. simpl Nat.eqb. cbv iota.
    destruct (backburner_off policy (listeners a)) as [n|].
    + reflexivity.
    + exists (c, rw). destruct a; simpl in *; subst; reflexivity.
  - change (Map_size ((c, rw) :: e' :: L') =? 1) with false. cbv iota.
    specialize (IH (set_recordsWatchers (e' :: L') a) eq_refl ND').
    cbv zeta in IH. simpl listeners in IH.
    destruct (backburner_off policy (listeners a)) as [n|].
    + rewrite IH by (intros; apply Rel; simpl; auto).
      destruct a; reflexivity.
    + destruct IH as [e0 IH]; [intros; apply Rel; simpl; auto|].
      exists e0. rewrite IH. destruct a; reflexivity.
Qed.

Definition unwatched (a : DataAdapter) : Prop :=
  recordsWatchers a = [] /\ typeWatchers a = [].

(** With nothing registered, a release function finds nothing to do. *)
Lemma unwatched_release f a :
  unwatched a -> try_release policy f a = Normal a.
Proof.
  intros [Er Et]. destruct a; simpl in *; subst.
  destruct f; reflexivity.
Qed.

Lemma unwatched_forEach fs : forall a,
  unwatched a -> forEach_call (try_release policy) fs a = Normal a.
Proof.
  induction fs as [|f fs IH]; intros a U; [reflexivity|].
  rewrite forEach_call_cons, unwatched_release by exact U.
  apply IH, U.
Qed.

Lemma unwatched_typesRelease t a :
  unwatched a ->
  exists a', try_typesRelease policy t a = Normal a' /\ unwatched a'.
Proof.
  intros U. unfold try_typesRelease. rewrite unwatched_forEach by exact U.
  simpl. eexists. split; [reflexivity | exact U].
Qed.

Lemma unwatched_pending a :
  unwatched a ->
  exists a',
    Array_forEach (fun c => releaseMethods (after c))
                  (fun c fn => andThen c (try_typesRelease policy fn))
                  (Normal a)
    = Normal a' /\ unwatched a'.
Proof.
  intros U. unfold Array_forEach.
  apply fold_left_inv
    with (P := fun c => exists a', c = Normal a' /\ unwatched a');
    [|eauto].
  intros c i (a' & -> & U'). simpl.
  destruct (nth_error (releaseMethods a') i) as [t|]; [|eauto].
  apply unwatched_typesRelease, U'.
Qed.

(** How [willDestroy] ends on an adapter that satisfies the invariant. *)
Lemma willDestroy_cases a :
  AdapterInv a ->
  let c := try_willDestroy policy a in
  match typeWatchers a, recordsWatchers a with
  | [], [] => throws c = false /\ unwatched (after c)
  | _ :: _, [] | [], _ :: _ =>
      match backburner_off policy (listeners a) with
      | Some _ => throws c = false /\ unwatched (after c)
      | None => throws c = true /\ watching (after c) = true
      end
  | _ :: _, _ :: _ =>
      match backburner_off policy (listeners a) with
      | Some n =>
          match backburner_off policy n with
          | Some _ => throws c = false /\ unwatched (after c)
          | None => throws c = true /\ watching (after c) = true
          end
      | None => throws c = true /\ watching (after c) = true
      end
  end.
Proof.
  intros [N1 N2 R1 R2]. cbv zeta. unfold try_willDestroy.
  pose proof (drain_types (typeWatchers a) a eq_refl N2 R2) as Dt.
  cbv zeta in Dt.
  assert (Dr : forall a1,
             recordsWatchers a1 = recordsWatchers a ->
             let c := forEach_call
                        (fun e => try_release policy (rw_release (snd e)))
                        (recordsWatchers a1) a1 in
             match recordsWatchers a, backburner_off policy (listeners a1) with
             | [], _ => c = Normal a1
             | _ :: _, Some n =>
                 c = Normal (set_recordsWatchers [] (set_listeners n a1))
             | _ :: _, None => exists e, c = Throw (set_recordsWatchers [e] a1)
             end).
  { intros a1 E. pose proof (drain_records (recordsWatchers a1) a1 eq_refl)
      as D. rewrite E in D |- *. apply D; assumption. }
  assert (Fin : forall a2,
             unwatched a2 ->
             let c := Array_forEach (fun c => releaseMethods (after c))
                        (fun c fn => andThen c (try_typesRelease policy fn))
                        (Normal a2) in
             throws c = false /\ unwatched (after c)).
  { intros a2 U. cbv zeta. destruct (unwatched_pending a2 U) as (a' & -> & U').
    auto. }
  destruct (typeWatchers a) as [|et T] eqn:Et.
  - rewrite Dt. cbv beta iota delta [andThen].
    specialize (Dr a eq_refl). cbv zeta in Dr.
    destruct (recordsWatchers a) as [|er R] eqn:Er.
    + rewrite Dr. cbv beta iota delta [andThen]. apply Fin. split; assumption.
    + destruct (backburner_off policy (listeners a)) as [n|].
      * rewrite Dr. cbv beta iota delta [andThen]. apply Fin.
        split; [reflexivity | exact Et].
      * destruct Dr as [e ->]. simpl. auto.
  - destruct (backburner_off policy (listeners a)) as [n|] eqn:Off.
    + rewrite Dt. cbv beta iota delta [andThen].
      specialize (Dr (set_typeWatchers [] (set_listeners n a)) eq_refl).
      cbv zeta in Dr. simpl listeners in Dr.
      destruct (recordsWatchers a) as [|er R] eqn:Er.
      * rewrite Dr. cbv beta iota delta [andThen]. apply Fin.
        split; [exact Er | reflexivity].
      * destruct (backburner_off policy n) as [n'|].
        -- rewrite Dr. cbv beta iota delta [andThen]. apply Fin.
           split; reflexivity.
        -- destruct Dr as [e ->]. simpl. auto.
    + destruct Dt as [e ->]. simpl.
      assert (W : watching (set_typeWatchers [e] a) = true)
        by (unfold watching; simpl; apply orb_true_r).
      destruct (recordsWatchers a); auto.
Qed.
End ShutdownFacts.

(** From every state an adapter can reach, [willDestroy] either returns with
    both watcher registries empty, or throws and leaves a watcher
    registered. When [off] withdraws
    every registration, it throws exactly if both registries hold a watcher,
    or something is watched while [flushWatchers] is not registered; when
    [off] withdraws one registration, exactly if there are fewer
    registrations than registries that hold a watcher. *)
Theorem willDestroy_outcome {H : Hooks} (policy : OffPolicy)
    (contents : Coll -> list RecordId) (xs : list Action) :
  let a := sys_adapter (play policy xs (boot contents)) in
  let c := try_willDestroy policy a in
  let t := Map_size (typeWatchers a) in
  let r := Map_size (recordsWatchers a) in
  throws c
  = match policy with
    | OffAll => ((0 <? t) && (0 <? r)) || (watching a && negb (subscribed a))
    | OffOne => listeners a
                <? (if 0 <? t then 1 else 0) + (if 0 <? r then 1 else 0)
    end
  /\ (if throws c then watching (willDestroy policy a) = true
      else recordsWatchers (willDestroy policy a) = []
           /\ typeWatchers (willDestroy policy a) = []).
Proof.
  cbv zeta. set (a := sys_adapter (play policy xs (boot contents))).
  pose proof (willDestroy_cases policy a
                (AdapterInv_play policy xs (boot contents) AdapterInv_init))
    as C.
  cbv zeta in C. unfold willDestroy, watching, subscribed, unwatched in *.
  destruct (typeWatchers a) as [|et T], (recordsWatchers a) as [|er R];
    simpl Map_size; simpl Nat.ltb; simpl andb; simpl orb;
    destruct policy, (listeners a) as [|[|n]]; simpl in C |- *;
    destruct C as [-> C]; auto.
Qed.

(** Calling a watcher's release function a second time changes neither
    registry. *)
Theorem release_twice_same_registries {H : Hooks} (policy : OffPolicy)
    (f : ReleaseFn) (a : DataAdapter) :
  recordsWatchers (call_release policy f (call_release policy f a))
    = recordsWatchers (call_release policy f a)
  /\ typeWatchers (call_release policy f (call_release policy f a))
     = typeWatchers (call_release policy f a).
Proof.
  destruct (throws (try_release policy f a)) eqn:T.
  - rewrite !(call_release_thrown policy f a T). auto.
  - destruct (call_release_returned policy f a T) as [Er Et].
    destruct (call_release_registries policy f (call_release policy f a))
      as [[Er' Et']|[Er' Et']]; [auto|].
    rewrite Er', Et', Er, Et.
    destruct f; rewrite ?Map_delete_twice; auto.
Qed.

(** The scenario of a watched array holding the records 1 and 2: the first
    revalidation reports both as added; a change of a tracked field of 1
    followed by the end of the batch reports 1 as updated; the removal of 2
    reports 2 as removed; after the release nothing is reported any more. And
    a record added and removed again within one batch is not reported at
    all. *)
Theorem watched_array_scenario (policy : OffPolicy) :
  let s1 := @play sampleHooks policy [doWatchRecords 0 7]
                  (boot sampleContents) in
  let f := fst (@watchRecords sampleHooks sampleWorld 0 7 init) in
  let s2 := @play sampleHooks policy [doMutate (setProp 1); doEnd] s1 in
  let s3 := @play sampleHooks policy [doMutate (removeObject 0 2); doEnd] s2 in
  let s4 := @play sampleHooks policy
                  [doMutate (pushObject 0 3); doMutate (removeObject 0 3);
                   doEnd] s3 in
  let s5 := @play sampleHooks policy
                  [doRelease f; doMutate (pushObject 0 4); doEnd] s4 in
  calls (sys_adapter s1)
    = [recordsAdded 7 [{| object := 1 |}; {| object := 2 |}]]
  /\ calls (sys_adapter s2)
     = calls (sys_adapter s1) ++ [recordsUpdated 7 [{| object := 1 |}]]
  /\ calls (sys_adapter s3)
     = calls (sys_adapter s2) ++ [recordsRemoved 7 [{| object := 2 |}]]
  /\ calls (sys_adapter s4) = calls (sys_adapter s3)
  /\ calls (sys_adapter s5) = calls (sys_adapter s4).
Proof.
  destruct policy; vm_compute; repeat split; reflexivity.
Qed.

(** * The end of a batch *)

Section FlushFacts.
Context {H : Hooks}.
Variable w : World.

Lemma revalidateAll_again (W : Type) (reval : W -> W * list Event)
    (m : JSMap W) :
  (forall x, reval (fst (reval x)) = (fst (reval x), [])) ->
  revalidateAll reval (fst (revalidateAll reval m))
  = (fst (revalidateAll reval m), []).
Proof.
  intros Again. induction m as [|[c x] m IH]; simpl; [reflexivity|].
  pose proof (Again x) as Ex.
  destruct (reval x) as [x' out], (revalidateAll reval m) as [m' out'].
  simpl in *. rewrite Ex, IH. reflexivity.
Qed.

Lemma revalidate_again rw :
  RecordsWatcher_revalidate w (fst (RecordsWatcher_revalidate w rw))
  = (fst (RecordsWatcher_revalidate w rw), []).
Proof. apply revalidate_memo, revalidate_valid. Qed.

Lemma tw_revalidate_again tw :
  TypeWatcher_revalidate w (fst (TypeWatcher_revalidate w tw))
  = (fst (TypeWatcher_revalidate w tw), []).
Proof. apply tw_revalidate_memo, tw_revalidate_valid. Qed.

Lemma flushWatchers_eq a :
  flushWatchers w a =
  {| releaseMethods := releaseMethods a;
     recordsWatchers :=
       fst (revalidateAll (RecordsWatcher_revalidate w) (recordsWatchers a));
     typeWatchers :=
       fst (revalidateAll (TypeWatcher_revalidate w) (typeWatchers a));
     listeners := listeners a;
     nextId := nextId a;
     calls := (calls a
               ++ snd (revalidateAll (TypeWatcher_revalidate w)
                         (typeWatchers a)))
              ++ snd (revalidateAll (RecordsWatcher_revalidate w)
                        (recordsWatchers a)) |}.
Proof.
  unfold flushWatchers.
  destruct (revalidateAll (TypeWatcher_revalidate w) (typeWatchers a))
    as [tws out1].
  simpl.
  destruct (revalidateAll (RecordsWatcher_revalidate w) (recordsWatchers a))
    as [rws out2].
  reflexivity.
Qed.

Lemma flushWatchers_again a :
  flushWatchers w (flushWatchers w a) = flushWatchers w a.
Proof.
  rewrite (flushWatchers_eq (flushWatchers w a)).
  rewrite (flushWatchers_eq a) at 1 2 3 4 5 6 7 8. simpl.
  rewrite (revalidateAll_again _ _ _ revalidate_again).
  rewrite (revalidateAll_again _ _ _ tw_revalidate_again).
  simpl. rewrite !app_nil_r. symmetry. apply flushWatchers_eq.
Qed.

Lemma revalidateAll_events (W : Type) (reval : W -> W * list Event)
    (P : Event -> Prop) (m : JSMap W) :
  (forall x e, In e (snd (reval x)) -> P e) ->
  forall e, In e (snd (revalidateAll reval m)) -> P e.
Proof.
  intros Each. induction m as [|[c x] m IH]; simpl; [tauto|].
  pose proof (Each x) as Ex.
  destruct (reval x) as [x' out], (revalidateAll reval m) as [m' out'].
  simpl in *. intros e I. apply in_app_or in I. destruct I; auto.
Qed.

Lemma tw_revalidate_events tw e :
  In e (snd (TypeWatcher_revalidate w tw)) -> rank e = 4.
Proof.
  destruct (isValid w (tw_cache tw)) eqn:Val.
  - rewrite tw_revalidate_memo by exact Val. simpl. tauto.
  - rewrite tw_revalidate_run by exact Val. simpl.
    destruct (hasBeenAccessed tw); simpl; [|tauto].
    intros [<-|[]]. reflexivity.
Qed.

Lemma revalidate_events rw e :
  In e (snd (RecordsWatcher_revalidate w rw)) -> rank e <= 2.
Proof.
  rewrite revalidate_out.
  destruct (isValid w (recordArrayCache rw)); [simpl; tauto|].
  apply dispatch_ordered.
Qed.
End FlushFacts.

Lemma flushWatchers_keeps {H : Hooks} (w : World) (a : DataAdapter) :
  Map_keys (recordsWatchers (flushWatchers w a)) = Map_keys (recordsWatchers a)
  /\ Map_keys (typeWatchers (flushWatchers w a)) = Map_keys (typeWatchers a)
  /\ listeners (flushWatchers w a) = listeners a
  /\ releaseMethods (flushWatchers w a) = releaseMethods a.
Proof.
  rewrite flushWatchers_eq. simpl. rewrite !revalidateAll_keys.
  repeat split.
Qed.

Lemma fire_end_eq {H : Hooks} (w : World) (a : DataAdapter) :
  fire_end w a = if listeners a =? 0 then a else flushWatchers w a.
Proof.
  assert (It : forall n b,
             Nat.iter (S n) (flushWatchers w) b = flushWatchers w b).
  { induction n as [|n IH]; intros b; [reflexivity|].
    change (Nat.iter (S (S n)) (flushWatchers w) b)
      with (flushWatchers w (Nat.iter (S n) (flushWatchers w) b)).
    rewrite IH. apply flushWatchers_again. }
  unfold fire_end. destruct (listeners a) as [|n]; [reflexivity|].
  apply It.
Qed.

(** The end of a batch calls back in two blocks, every [typesUpdated] of the
    TypeWatchers before every callback of the RecordsWatchers, and never
    [typesAdded]; it changes neither which arrays are watched, nor the
    subscription, nor the pending release functions. *)
Theorem flushWatchers_frame {H : Hooks} (w : World) (a : DataAdapter) :
  Map_keys (recordsWatchers (flushWatchers w a)) = Map_keys (recordsWatchers a)
  /\ Map_keys (typeWatchers (flushWatchers w a)) = Map_keys (typeWatchers a)
  /\ listeners (flushWatchers w a) = listeners a
  /\ releaseMethods (flushWatchers w a) = releaseMethods a
  /\ exists out1 out2,
       calls (flushWatchers w a) = calls a ++ out1 ++ out2
       /\ (forall e, In e out1 -> rank e = 4)
       /\ (forall e, In e out2 -> rank e <= 2).
Proof.
  destruct (flushWatchers_keeps w a) as (Kr & Kt & Li & Re).
  repeat (split; [assumption|]).
  rewrite flushWatchers_eq. simpl.
  exists (snd (revalidateAll (TypeWatcher_revalidate w) (typeWatchers a))),
         (snd (revalidateAll (RecordsWatcher_revalidate w) (recordsWatchers a))).
  split; [symmetry; apply app_assoc|]. split.
  - apply revalidateAll_events. apply tw_revalidate_events.
  - apply revalidateAll_events. apply revalidate_events.
Qed.

(** However often [flushWatchers] is registered on the event, the end of a
    batch has the effect of one call of it, and a second end of batch with no
    mutation in between changes nothing: it invokes no callback. *)
Theorem batch_end_once {H : Hooks} (w : World) (a : DataAdapter) :
  fire_end w a = (if listeners a =? 0 then a else flushWatchers w a)
  /\ fire_end w (fire_end w a) = fire_end w a.
Proof.
  split; [apply fire_end_eq|].
  rewrite (fire_end_eq w a). destruct (listeners a =? 0) eqn:L.
  - rewrite fire_end_eq, L. reflexivity.
  - rewrite fire_end_eq.
    replace (listeners (flushWatchers w a)) with (listeners a)
      by (rewrite flushWatchers_eq; reflexivity).
    rewrite L. apply flushWatchers_again.
Qed.

(** * Watching the model types *)

Section ModelTypesFacts.
Context {H : Hooks}.
Variable w : World.

(** What [wrapModelType] returns for a model name. *)
Definition wrappedType (modelName : ModelName) : WrappedType :=
  {| name := modelName; count := length (store w (getRecords modelName)) |}.

(** The loop of [watchModelTypes] over the model types (lines 269-274). *)
Definition observeAll (k : Caller) (l : list ModelName)
    (acc : list WrappedType * list ReleaseFn * DataAdapter)
  : list WrappedType * list ReleaseFn * DataAdapter :=
  fold_left
    (fun (acc : list WrappedType * list ReleaseFn * DataAdapter) type =>
       let '(sent, methods, a) := acc in
       let '(wrapped, _) := wrapModelType w type idle in
       let '(f, a') := observeModelType w type k a in
       (sent ++ [wrapped], methods ++ [f], a'))
    l acc.

Lemma watchModelTypes_eq k a :
  watchModelTypes w k a =
  let '(typesToSend, methods, a1) := observeAll k getModelTypes ([], [], a) in
  let a2 := invoke [typesAdded k typesToSend] a1 in
  let release := {| tr_id := nextId a2; tr_releaseMethods := methods |} in
  (release,
   set_releaseMethods (releaseMethods a2 ++ [release]) (fresh_closure a2)).
Proof. reflexivity. Qed.

Lemma observeModelType_known modelName k a tw :
  Map_get (getRecords modelName) (typeWatchers a) = Some tw ->
  observeModelType w modelName k a = (tw_release tw, a).
Proof. intros G. unfold observeModelType. rewrite G. reflexivity. Qed.

(** What one [observeModelType] does to the adapter. *)
Record Observed (modelName : ModelName) (a : DataAdapter)
    (r : ReleaseFn * DataAdapter) : Prop := {
  ob_calls : calls (snd r) = calls a;
  ob_records : recordsWatchers (snd r) = recordsWatchers a;
  ob_pending : releaseMethods (snd r) = releaseMethods a;
  ob_registered : exists tw,
      Map_get (getRecords modelName) (typeWatchers (snd r)) = Some tw
      /\ tw_release tw = fst r;
  ob_kept : forall c tw, Map_get c (typeWatchers a) = Some tw ->
                         Map_get c (typeWatchers (snd r)) = Some tw;
  ob_new : forall c, Map_get c (typeWatchers (snd r)) <> None ->
                     Map_get c (typeWatchers a) <> None
                     \/ c = getRecords modelName;
  ob_again : Map_get (getRecords modelName) (typeWatchers a) <> None ->
             snd r = a
}.

Lemma observeModelType_spec modelName k a :
  Observed modelName a (observeModelType w modelName k a).
Proof.
  destruct (Map_get (getRecords modelName) (typeWatchers a)) as [tw|] eqn:G.
  - rewrite (observeModelType_known _ k _ _ G).
    constructor; simpl; auto. exists tw. auto.
  - unfold observeModelType. rewrite G.
    set (a1 := if Map_size (typeWatchers a) =? 0
               then set_listeners (backburner_on (listeners a)) a else a).
    assert (E1 : recordsWatchers a1 = recordsWatchers a
                 /\ typeWatchers a1 = typeWatchers a
                 /\ calls a1 = calls a /\ releaseMethods a1 = releaseMethods a)
      by (unfold a1; destruct (Map_size (typeWatchers a) =? 0); auto).
    destruct E1 as (Er & Et & Ec & Ep).
    rewrite (tw_revalidate_run w
               (new_TypeWatcher (getRecords modelName) k modelName
                  (releaseType (nextId a1) (getRecords modelName))))
      by reflexivity.
    constructor; simpl; rewrite ?Er, ?Et, ?Ec, ?Ep; auto.
    + apply app_nil_r.
    + eexists. rewrite Map_get_set, Nat.eqb_refl. split; reflexivity.
    + intros c tw Gc. rewrite Map_get_set.
      destruct (c =? getRecords modelName) eqn:E; [|exact Gc].
      apply Nat.eqb_eq in E. subst c. congruence.
    + intros c. rewrite Map_get_set.
      destruct (c =? getRecords modelName) eqn:E; [|auto].
      apply Nat.eqb_eq in E. auto.
    + congruence.
Qed.

(** What the loop over the model types does. *)
Record ObservedAll (k : Caller) (l : list ModelName)
    (acc res : list WrappedType * list ReleaseFn * DataAdapter) : Prop := {
  oa_sent : fst (fst res) = fst (fst acc) ++ map wrappedType l;
  oa_count : length (snd (fst res)) = length (snd (fst acc)) + length l;
  oa_calls : calls (snd res) = calls (snd acc);
  oa_records : recordsWatchers (snd res) = recordsWatchers (snd acc);
  oa_pending : releaseMethods (snd res) = releaseMethods (snd acc);
  oa_kept : forall c tw, Map_get c (typeWatchers (snd acc)) = Some tw ->
                         Map_get c (typeWatchers (snd res)) = Some tw;
  oa_methods : forall f, In f (snd (fst acc)) -> In f (snd (fst res));
  oa_registered : forall n, In n l ->
      exists tw, Map_get (getRecords n) (typeWatchers (snd res)) = Some tw
                 /\ In (tw_release tw) (snd (fst res));
  oa_origin : forall f, In f (snd (fst res)) ->
      In f (snd (fst acc)) \/
      exists n tw, In n l
                   /\ Map_get (getRecords n) (typeWatchers (snd res)) = Some tw
                   /\ tw_release tw = f;
  oa_new : forall c, Map_get c (typeWatchers (snd res)) <> None ->
                     Map_get c (typeWatchers (snd acc)) <> None
                     \/ exists n, In n l /\ getRecords n = c;
  oa_again : (forall n, In n l ->
                Map_get (getRecords n) (typeWatchers (snd acc)) <> None) ->
             snd res = snd acc
}.

Lemma observeAll_spec k l : forall acc,
  ObservedAll k l acc (observeAll k l acc).
Proof.
  induction l as [|n l IH]; intros [[sent methods] a].
  - constructor; simpl; auto; try tauto.
    symmetry. apply app_nil_r.
  - change (observeAll k (n :: l) (sent, methods, a))
      with (observeAll k l
              (let '(wrapped, _) := wrapModelType w n idle in
               let '(f, a') := observeModelType w n k a in
               (sent ++ [wrapped], methods ++ [f], a'))).
    pose proof (observeModelType_spec n k a) as [Oc Or Op Og Ok On Oa].
    unfold wrapModelType. cbv beta iota.
    destruct (observeModelType w n k a) as [f a'].
    simpl in Oc, Or, Op, Og, Ok, On, Oa.
    fold (wrappedType n).
    specialize (IH (sent ++ [wrappedType n], methods ++ [f], a')).
    destruct IH as [Is In_ Ic Ir Ip Ik Im Ig Io Iw Ia].
    simpl in Is, In_, Ic, Ir, Ip, Ik, Im, Ig, Io, Iw, Ia.
    constructor; simpl.
    + rewrite Is, <- app_assoc. reflexivity.
    + rewrite In_, length_app. simpl. lia.
    + congruence.
    + congruence.
    + congruence.
    + intros c tw G. apply Ik, Ok, G.
    + intros g I. apply Im, in_or_app. auto.
    + intros m [<-|I]; [|apply Ig, I].
      destruct Og as (tw & G & R). exists tw. split; [apply Ik, G|].
      apply Im, in_or_app. right. rewrite R. simpl. auto.
    + intros g I. destruct (Io g I) as [I0|(m & tw & Im' & G & R)].
      * apply in_app_or in I0. destruct I0 as [I0|[<-|[]]]; [auto|].
        right. destruct Og as (tw & G & R). exists n, tw.
        split; [auto|]. split; [apply Ik, G | exact R].
      * right. exists m, tw. auto.
    + intros c Gc. destruct (Iw c Gc) as [G0|(m & I & E)].
      * destruct (On c G0) as [G1| ->]; [auto|]. right. exists n. auto.
      * right. exists m. auto.
    + intros All. rewrite Ia.
      * apply Oa, All. auto.
      * intros m I. rewrite Oa by (apply All; auto). apply All. auto.
Qed.




End ModelTypesFacts.

(** [watchModelTypes] calls [typesAdded] once, with one wrapped type per
    model type in the order of [getModelTypes], each counting the records its
    array holds at that moment, and calls nothing else. It appends the release
    function it returns to the pending ones; afterwards the array of every
    model type has a TypeWatcher whose release function the returned one will
    call, and TypeWatchers registered before are left as they were. *)
Theorem watchModelTypes_reports {H : Hooks} (w : World) (k : Caller)
    (a : DataAdapter) :
  let r := watchModelTypes w k a in
  calls (snd r) = calls a ++ [typesAdded k (map (wrappedType w) getModelTypes)]
  /\ releaseMethods (snd r) = releaseMethods a ++ [fst r]
  /\ length (tr_releaseMethods (fst r)) = length getModelTypes
  /\ recordsWatchers (snd r) = recordsWatchers a
  /\ (forall n, In n getModelTypes ->
        exists tw,
          Map_get (getRecords n) (typeWatchers (snd r)) = Some tw
          /\ In (tw_release tw) (tr_releaseMethods (fst r)))
  /\ (forall c tw, Map_get c (typeWatchers a) = Some tw ->
                   Map_get c (typeWatchers (snd r)) = Some tw).
Proof.
  cbv zeta. rewrite watchModelTypes_eq.
  pose proof (observeAll_spec w k getModelTypes ([], [], a))
    as [Is In_ Ic Ir Ip Ik Im Ig Io Iw Ia].
  destruct (observeAll w k getModelTypes ([], [], a)) as [[sent methods] a1].
  simpl in *. subst sent. rewrite Ic, Ip, Ir.
  repeat split; auto.
Qed.

(** When the array of every model type already has a TypeWatcher,
    [watchModelTypes] registers nothing: it only calls [typesAdded] and
    appends its release function. No TypeWatcher holds the [typesUpdated]
    callback of this call. *)
Theorem watchModelTypes_again {H : Hooks} (w : World) (k : Caller)
    (a : DataAdapter) :
  (forall n, In n getModelTypes ->
             Map_get (getRecords n) (typeWatchers a) <> None) ->
  let r := watchModelTypes w k a in
  snd r
  = set_releaseMethods (releaseMethods a ++ [fst r])
      (fresh_closure
         (invoke [typesAdded k (map (wrappedType w) getModelTypes)] a))
  /\ typeWatchers (snd r) = typeWatchers a
  /\ listeners (snd r) = listeners a.
Proof.
  intros All. cbv zeta. rewrite watchModelTypes_eq.
  pose proof (observeAll_spec w k getModelTypes ([], [], a))
    as [Is In_ Ic Ir Ip Ik Im Ig Io Iw Ia].
  destruct (observeAll w k getModelTypes ([], [], a)) as [[sent methods] a1].
  simpl in *. subst sent. rewrite (Ia All). repeat split.
Qed.

Lemma watchModelTypes_again_witness :
  let a := snd (@watchModelTypes sampleHooks sampleWorld 5 init) in
  typeWatchers (snd (@watchModelTypes sampleHooks sampleWorld 6 a))
  = typeWatchers a
  /\ calls (snd (@watchModelTypes sampleHooks sampleWorld 6 a))
     = calls a ++ [typesAdded 6 [{| name := 0; count := 2 |}]].
Proof.
  cbv zeta.
  destruct (@watchModelTypes_again sampleHooks sampleWorld 6
              (snd (@watchModelTypes sampleHooks sampleWorld 5 init)))
    as (E & Et & _).
  - intros n [<-|[]]. vm_compute. discriminate.
  - split; [exact Et|]. rewrite E. reflexivity.
Defined.

(** * One watcher for each array *)

Lemma observeModelType_size {H : Hooks} w modelName k a :
  Map_size (typeWatchers (snd (observeModelType w modelName k a)))
  <= S (Map_size (typeWatchers a)).
Proof.
  unfold observeModelType.
  destruct (Map_get (getRecords modelName) (typeWatchers a));
    [simpl; lia|].
  destruct (TypeWatcher_revalidate _ _) as [tw' out]. simpl.
  destruct (Map_size (typeWatchers a) =? 0); simpl; apply Map_size_set.
Qed.

(** In every state an adapter can reach, no array has more than one
    RecordsWatcher or more than one TypeWatcher. Two [watchRecords] calls
    that resolve to the same array leave exactly one RecordsWatcher for it:
    the second call creates nothing, changes nothing and returns the release
    function the first returned; likewise two [observeModelType] calls and
    the TypeWatcher. The one release function both callers hold throws
    exactly when it finds a single RecordsWatcher registered and
    [flushWatchers] not registered, and then changes nothing; otherwise it
    returns, and the array has no RecordsWatcher any more, for either
    caller. *)
Theorem one_watcher_per_array {H : Hooks} (policy : OffPolicy)
    (contents : Coll -> list RecordId) (xs : list Action)
    (modelName1 modelName2 : ModelName) (k1 k2 : Caller) :
  getRecords modelName1 = getRecords modelName2 ->
  let s := play policy xs (boot contents) in
  let a := sys_adapter s in
  let c := getRecords modelName1 in
  let r1 := watchRecords (sys_world s) modelName1 k1 a in
  let r2 := watchRecords (sys_world s) modelName2 k2 (snd r1) in
  let o1 := observeModelType (sys_world s) modelName1 k1 a in
  let o2 := observeModelType (sys_world s) modelName2 k2 (snd o1) in
  let released := try_release policy (fst r1) (snd r2) in
  NoDup (Map_keys (recordsWatchers a)) /\ NoDup (Map_keys (typeWatchers a))
  /\ (count_occ Nat.eq_dec (Map_keys (recordsWatchers (snd r2))) c = 1
      /\ snd r2 = snd r1 /\ fst r2 = fst r1
      /\ Map_size (recordsWatchers (snd r2))
         <= S (Map_size (recordsWatchers a)))
  /\ (count_occ Nat.eq_dec (Map_keys (typeWatchers (snd o2))) c = 1
      /\ snd o2 = snd o1 /\ fst o2 = fst o1
      /\ Map_size (typeWatchers (snd o2)) <= S (Map_size (typeWatchers a)))
  /\ throws released
     = (Map_size (recordsWatchers (snd r2)) =? 1)
       && negb (subscribed (snd r2))
  /\ (if throws released then after released = snd r2
      else Map_get c (recordsWatchers (after released)) = None).
Proof.
  intros En. cbv zeta.
  set (s := play policy xs (boot contents)).
  pose proof (AdapterInv_play policy xs (boot contents) AdapterInv_init) as I.
  fold s in I.
  pose proof (AdapterInv_watchRecords (sys_world s) modelName1 k1 _ I) as I1.
  pose proof (AdapterInv_observeModelType (sys_world s) modelName1 k1 _ I)
    as J1.
  destruct (watchRecords_registers (sys_world s) modelName1 k1 (sys_adapter s))
    as (rw & G & R).
  pose proof (watchRecords_size (sys_world s) modelName1 k1 (sys_adapter s))
    as Sz.
  pose proof (observeModelType_spec (sys_world s) modelName1 k1
                (sys_adapter s)) as [_ _ _ (tw & Gt & Rt) _ _ _].
  pose proof (observeModelType_size (sys_world s) modelName1 k1
                (sys_adapter s)) as Szt.
  set (r1 := watchRecords (sys_world s) modelName1 k1 (sys_adapter s)) in *.
  set (o1 := observeModelType (sys_world s) modelName1 k1 (sys_adapter s))
    in *.
  assert (E2 : watchRecords (sys_world s) modelName2 k2 (snd r1)
               = (fst r1, snd r1)).
  { rewrite <- R. apply watchRecords_known. rewrite <- En. exact G. }
  assert (F2 : observeModelType (sys_world s) modelName2 k2 (snd o1)
               = (fst o1, snd o1)).
  { rewrite <- Rt. apply observeModelType_known. rewrite <- En. exact Gt. }
  rewrite E2, F2. simpl fst; simpl snd.
  destruct (ai_rrelease _ I1 _ _ (Map_get_In _ _ _ _ G)) as [id Ef].
  rewrite R in Ef.
  split; [apply (ai_records _ I)|]. split; [apply (ai_types _ I)|].
  split; [|split; [|split]].
  - repeat split; [|exact Sz].
    apply NoDup_count_occ'; [apply (ai_records _ I1)|].
    eapply Map_get_Some_In, G.
  - repeat split; [|exact Szt].
    apply NoDup_count_occ'; [apply (ai_types _ J1)|].
    eapply Map_get_Some_In, Gt.
  - rewrite try_release_throws, Ef. unfold subscribed. simpl tested_size.
    destruct (listeners (snd r1)); reflexivity.
  - destruct (throws (try_release policy (fst r1) (snd r1))) eqn:T.
    + rewrite try_release_Throw by exact T. reflexivity.
    + destruct (call_release_returned policy _ _ T) as [Er _].
      unfold call_release in Er. rewrite Er, Ef, Map_get_delete, Nat.eqb_refl.
      reflexivity.
Qed.

(** The two calls of the sample host for the array 0, on an adapter that
    watches the model types. *)
Lemma one_watcher_per_array_witness :
  let s := @play sampleHooks OffAll [doWatchModelTypes 5] (boot sampleContents) in
  let r1 := @watchRecords sampleHooks (sys_world s) 0 7 (sys_adapter s) in
  let r2 := @watchRecords sampleHooks (sys_world s) 0 8 (snd r1) in
  @getRecords sampleHooks 0 = @getRecords sampleHooks 0
  /\ fst r2 = fst r1 /\ snd r2 = snd r1.
Proof.
  cbv zeta. split; [reflexivity|].
  destruct (@one_watcher_per_array sampleHooks OffAll sampleContents
              [doWatchModelTypes 5] 0 0 7 8 eq_refl)
    as (_ & _ & (_ & E2 & E1 & _) & _).
  split; assumption.
Defined.

Lemma Map_size_delete (V : Type) (k : nat) (m : JSMap V) :
  NoDup (Map_keys m) -> In k (Map_keys m) ->
  S (Map_size (Map_delete k m)) = Map_size m.
Proof.
  unfold Map_size. induction m as [|[k' x] m IH]; simpl; [tauto|].
  intros ND I. inversion ND as [|? ? N ND']; subst.
  destruct (k' =? k) eqn:E; simpl.
  - apply Nat.eqb_eq in E. subst k'.
    fold (Map_delete k m). rewrite Map_delete_absent by exact N. reflexivity.
  - apply Nat.eqb_neq in E. destruct I as [I|I]; [contradiction|].
    fold (Map_delete k m). rewrite IH by assumption. reflexivity.
Qed.

Section ReleaseTypesFacts.
Context {H : Hooks}.
Variable policy : OffPolicy.


End ReleaseTypesFacts.



(** * The first report of a watcher *)

(** The records of [l] that are not in [seen], each at its first
    occurrence. *)
Fixpoint firsts (seen l : list RecordId) : list RecordId :=
  match l with
  | [] => []
  | x :: l' => if Set_has x seen then firsts seen l'
               else x :: firsts (x :: seen) l'
  end.

Lemma firsts_ext l : forall S S',
  (forall x, In x S <-> In x S') -> firsts S l = firsts S' l.
Proof.
  induction l as [|x l IH]; intros S S' E; simpl; [reflexivity|].
  rewrite (Set_has_iff x S S' (E x)).
  destruct (Set_has x S'); [apply IH, E|].
  f_equal. apply IH. intros y. simpl. rewrite E. tauto.
Qed.

Lemma firsts_In l : forall S r,
  In r (firsts S l) <-> In r l /\ ~ In r S.
Proof.
  induction l as [|x l IH]; intros S r; simpl; [tauto|].
  destruct (Set_has x S) eqn:E.
  - apply Set_has_In in E. rewrite IH. split; [tauto|].
    intros [[->|I] N]; [contradiction | auto].
  - apply Set_has_false in E. simpl. rewrite IH. simpl.
    destruct (Nat.eq_dec x r) as [->|Ne]; tauto.
Qed.

Lemma firsts_NoDup l : forall S, NoDup (firsts S l).
Proof.
  induction l as [|x l IH]; intros S; simpl; [constructor|].
  destruct (Set_has x S); [apply IH|].
  constructor; [|apply IH]. rewrite firsts_In. simpl. tauto.
Qed.

Lemma filter_none (A : Type) (f : A -> bool) (l : list A) :
  (forall x, In x l -> f x = false) -> filter f l = [].
Proof.
  induction l as [|x l IH]; simpl; intros N; [reflexivity|].
  rewrite (N x) by auto. apply IH. auto.
Qed.

Section FirstReportFacts.
Context {H : Hooks}.
Variable w : World.

Lemma iterate_firsts L : forall caches d v,
  (forall r rc, Map_get r caches = Some rc -> isValid w (cache rc) = true) ->
  let s := iterate L (visit w) (caches, d, v) in
  added (snd (fst s))
    = added d ++ map (fun r => {| object := r |}) (firsts (Map_keys caches) L)
  /\ updated (snd (fst s)) = updated d
  /\ removed (snd (fst s)) = removed d
  /\ (forall r, In r (seen (snd (fst s))) <-> In r (seen d) \/ In r L)
  /\ (forall r, In r (Map_keys (fst (fst s)))
                <-> In r (Map_keys caches) \/ In r L).
Proof.
  unfold iterate.
  induction L as [|r0 L IH]; intros caches d v Val.
  - simpl. rewrite app_nil_r. repeat split; tauto.
  - change (fold_left (visit w) (r0 :: L) (caches, d, v))
      with (fold_left (visit w) L (visit w (caches, d, v) r0)).
    destruct (Map_get r0 caches) as [rc|] eqn:G.
    + rewrite (visit_known w _ d v _ _ G), (Val _ _ G).
      assert (K : forall x, In x (Map_keys (Map_set r0 rc caches))
                            <-> In x (Map_keys caches)).
      { intros x. rewrite In_keys_set.
        pose proof (Map_get_Some_In _ _ _ _ G). intuition (subst; auto). }
      destruct (IH (Map_set r0 rc caches) (add_seen r0 d)
                  (consumeTags (deps (cache rc)) v)) as (Ea & Eu & Er & Es & Ek).
      { intros r rc'. rewrite Map_get_set.
        destruct (r =? r0); [intros [= <-]; eauto | apply Val]. }
      cbv zeta. rewrite Ea, Eu, Er. simpl.
      assert (S0 : Set_has r0 (Map_keys caches) = true)
        by (apply Set_has_In; eapply Map_get_Some_In, G).
      rewrite S0, (firsts_ext L _ _ K).
      split; [reflexivity|]. split; [reflexivity|]. split; [reflexivity|].
      split.
      * intros r. rewrite Es. simpl. tauto.
      * intros r. rewrite Ek, K.
        pose proof (Map_get_Some_In _ _ _ _ G). intuition (subst; auto).
    + rewrite (visit_new w _ d v _ G).
      assert (K : forall x, In x (Map_keys (Map_set r0 (ranNode w r0) caches))
                            <-> In x (r0 :: Map_keys caches)).
      { intros x. rewrite In_keys_set. simpl. intuition. }
      destruct (IH (Map_set r0 (ranNode w r0) caches)
                  (add_seen r0 (push_added {| object := r0 |} d))
                  (consumeTags (wrap_reads r0) v)) as (Ea & Eu & Er & Es & Ek).
      { intros r rc'. rewrite Map_get_set.
        destruct (r =? r0); [intros [= <-]; apply isValid_after_run
                            | apply Val]. }
      cbv zeta. rewrite Ea, Eu, Er. simpl.
      assert (S0 : Set_has r0 (Map_keys caches) = false)
        by (apply Set_has_false, Map_get_None; exact G).
      rewrite S0, (firsts_ext L _ _ K), <- app_assoc.
      split; [reflexivity|]. split; [reflexivity|]. split; [reflexivity|].
      split.
      * intros r. rewrite Es. simpl. tauto.
      * intros r. rewrite Ek, K. simpl. tauto.
Qed.

Lemma collect_fresh c v :
  let d := snd (fst (collect w c [] v)) in
  added d = map (fun r => {| object := r |}) (firsts [] (store w c))
  /\ updated d = [] /\ removed d = [].
Proof.
  unfold collect. cbv zeta.
  destruct (iterate_firsts (store w c) [] noDiff (consumeTag (TagArr c) v))
    as (Ea & Eu & Er & Es & Ek); [discriminate|].
  match goal with
  | |- context [iterate ?l ?f ?s0] =>
      destruct (iterate l f s0) as [[caches1 d1] v2]
  end.
  simpl in Ea, Eu, Er, Es, Ek. rewrite untrack_sweep. simpl.
  assert (N : filter (unseen d1) (Map_keys caches1) = []).
  { apply filter_none. intros x I. unfold unseen.
    apply negb_false_iff, Set_has_In, Es. apply Ek in I. tauto. }
  rewrite N, Ea, Eu, Er. auto.
Qed.

Lemma first_revalidate c k f :
  snd (RecordsWatcher_revalidate w (new_RecordsWatcher c k f))
  = if 0 <? length (firsts [] (store w c))
    then [recordsAdded k (map (fun r => {| object := r |})
                              (firsts [] (store w c)))]
    else [].
Proof.
  rewrite revalidate_run by reflexivity. cbv zeta. simpl snd.
  simpl rw_records. simpl rw_callbacks. simpl recordCaches.
  destruct (collect_fresh c (beginTrackFrame idle)) as (Ea & Eu & Er).
  unfold dispatch. rewrite Ea, Eu, Er. simpl.
  rewrite length_map, app_nil_r. reflexivity.
Qed.
End FirstReportFacts.

(** A new RecordsWatcher reports, at its first revalidation, the records of
    the array as added: each record once, in the order of its first
    occurrence in the array, in a single call of [recordsAdded], and nothing
    else; for an empty array it calls nothing. This is what [watchRecords]
    hands to the callbacks of the caller that registers the watcher. *)
Theorem first_report {H : Hooks} (w : World) (modelName : ModelName)
    (k : Caller) (a : DataAdapter) :
  let c := getRecords modelName in
  let initial := firsts [] (store w c) in
  NoDup initial
  /\ (forall r, In r initial <-> In r (store w c))
  /\ (forall f, snd (RecordsWatcher_revalidate w (new_RecordsWatcher c k f))
                = if 0 <? length initial
                  then [recordsAdded k (map (fun r => {| object := r |})
                                            initial)]
                  else [])
  /\ (Map_get c (recordsWatchers a) = None ->
      calls (snd (watchRecords w modelName k a))
      = calls a ++ (if 0 <? length initial
                    then [recordsAdded k (map (fun r => {| object := r |})
                                              initial)]
                    else [])).
Proof.
  cbv zeta. split; [apply firsts_NoDup|]. split; [|split].
  - intros r. rewrite firsts_In. simpl. tauto.
  - intros f. apply first_revalidate.
  - intros G. unfold watchRecords. rewrite G.
    pose proof (first_revalidate w (getRecords modelName) k
                  (releaseRecords
                     (nextId (if Map_size (recordsWatchers a) =? 0
                              then set_listeners
                                     (backburner_on (listeners a)) a
                              else a))
                     (getRecords modelName))) as E.
    destruct (RecordsWatcher_revalidate _ _) as [rw' out].
    simpl in E |- *. rewrite E.
    destruct (Map_size (recordsWatchers a) =? 0); reflexivity.
Qed.

(** * The net change between two revalidations *)

Section CountFacts.
Context {H : Hooks}.
Variable w : World.

(** What the visit of [r] pushes, read off the node [r] has in the map. *)
Definition pushesAdded (caches : JSMap RecordCache) (r : RecordId) : nat :=
  match Map_get r caches with
  | Some rc => if isValid w (cache rc) then 0
               else if hasBeenAdded rc then 0 else 1
  | None => 1
  end.

Definition pushesUpdated (caches : JSMap RecordCache) (r : RecordId) : nat :=
  match Map_get r caches with
  | Some rc => if isValid w (cache rc) then 0
               else if hasBeenAdded rc then 1 else 0
  | None => 0
  end.

Lemma visit_counts caches d v r0 r :
  let s := visit w (caches, d, v) r0 in
  cnt r (added (snd (fst s)))
    = cnt r (added d) + (if r0 =? r then pushesAdded caches r0 else 0)
  /\ cnt r (updated (snd (fst s)))
     = cnt r (updated d) + (if r0 =? r then pushesUpdated caches r0 else 0)
  /\ (r <> r0 -> Map_get r (fst (fst s)) = Map_get r caches).
Proof.
  unfold pushesAdded, pushesUpdated.
  destruct (Map_get r0 caches) as [rc|] eqn:G.
  - rewrite (visit_known w _ d v _ _ G).
    destruct (isValid w (cache rc)); simpl.
    + repeat split; try (destruct (r0 =? r); lia).
      intros Ne. rewrite Map_get_set.
      destruct (r =? r0) eqn:E; [apply Nat.eqb_eq in E; contradiction|].
      reflexivity.
    + rewrite cnt_classify_added, cnt_classify_updated.
      repeat split; try (destruct (hasBeenAdded rc), (r0 =? r); lia).
      intros Ne. rewrite Map_get_set.
      destruct (r =? r0) eqn:E; [apply Nat.eqb_eq in E; contradiction|].
      reflexivity.
  - rewrite (visit_new w _ d v _ G). simpl. rewrite cnt_app, cnt_one.
    repeat split; try (destruct (r0 =? r); lia).
    intros Ne. rewrite Map_get_set.
    destruct (r =? r0) eqn:E; [apply Nat.eqb_eq in E; contradiction|].
    reflexivity.
Qed.

Lemma pushes_after_visit caches d v r :
  pushesAdded (fst (fst (visit w (caches, d, v) r))) r = 0
  /\ pushesUpdated (fst (fst (visit w (caches, d, v) r))) r = 0.
Proof.
  destruct (visit_tracker w caches d v r) as [_ (rc & G & Val)].
  unfold pushesAdded, pushesUpdated. rewrite G, Val. auto.
Qed.

(** The pass mentions a record of the array as its node at the start of the
    pass demands, once, however often the record occurs. *)
Lemma iterate_counts L : forall caches d v r,
  let s := iterate L (visit w) (caches, d, v) in
  cnt r (added (snd (fst s)))
    = cnt r (added d) + (if Set_has r L then pushesAdded caches r else 0)
  /\ cnt r (updated (snd (fst s)))
     = cnt r (updated d) + (if Set_has r L then pushesUpdated caches r else 0).
Proof.
  unfold iterate.
  induction L as [|r0 L IH]; intros caches d v r; [simpl; lia|].
  change (fold_left (visit w) (r0 :: L) (caches, d, v))
    with (fold_left (visit w) L (visit w (caches, d, v) r0)).
  destruct (visit_counts caches d v r0 r) as (Ea & Eu & Eg).
  destruct (pushes_after_visit caches d v r0) as (Pa & Pu).
  destruct (visit w (caches, d, v) r0) as [[caches1 d1] v1].
  simpl in Ea, Eu, Eg, Pa, Pu.
  destruct (IH caches1 d1 v1 r) as (Ia & Iu). cbv zeta. rewrite Ia, Iu, Ea, Eu.
  change (Set_has r (r0 :: L)) with ((r =? r0) || Set_has r L).
  rewrite (Nat.eqb_sym r r0).
  destruct (r0 =? r) eqn:E.
  - apply Nat.eqb_eq in E. subst r0. rewrite Pa, Pu. simpl.
    destruct (Set_has r L); lia.
  - apply Nat.eqb_neq in E. simpl.
    unfold pushesAdded, pushesUpdated. rewrite Eg by auto.
    destruct (Set_has r L); lia.
Qed.

Lemma collect_counts c caches v r :
  let d := snd (fst (collect w c caches v)) in
  cnt r (added d)
    = (if Set_has r (store w c) then pushesAdded caches r else 0)
  /\ cnt r (updated d)
     = (if Set_has r (store w c) then pushesUpdated caches r else 0).
Proof.
  unfold collect. cbv zeta.
  destruct (iterate_counts (store w c) caches noDiff
              (consumeTag (TagArr c) v) r) as (Ea & Eu).
  match goal with
  | |- context [iterate ?l ?f ?s0] =>
      destruct (iterate l f s0) as [[caches1 d1] v2]
  end.
  simpl in Ea, Eu. rewrite untrack_sweep. simpl. auto.
Qed.

(** A property of nodes that running a node establishes is kept by a whole
    run of the array computation. *)
Lemma collect_nodes (Q : RecordId -> RecordCache -> Prop) c caches v :
  (forall r, Q r (ranNode w r)) ->
  (forall r rc, Map_get r caches = Some rc -> Q r rc) ->
  forall r rc, Map_get r (fst (fst (collect w c caches v))) = Some rc -> Q r rc.
Proof.
  intros Qran Q0. unfold collect. cbv zeta.
  assert (It : forall L caches0 d0 v0,
             (forall r rc, Map_get r caches0 = Some rc -> Q r rc) ->
             forall r rc,
               Map_get r (fst (fst (iterate L (visit w) (caches0, d0, v0))))
               = Some rc -> Q r rc).
  { unfold iterate. induction L as [|r0 L IH]; intros caches0 d0 v0 Q1;
      [exact Q1|].
    change (fold_left (visit w) (r0 :: L) (caches0, d0, v0))
      with (fold_left (visit w) L (visit w (caches0, d0, v0) r0)).
    assert (Q2 : forall r rc,
               Map_get r (fst (fst (visit w (caches0, d0, v0) r0))) = Some rc
               -> Q r rc).
    { intros r rc. destruct (Map_get r0 caches0) as [rc0|] eqn:G.
      - rewrite (visit_known w _ d0 v0 _ _ G).
        destruct (isValid w (cache rc0)); simpl; rewrite Map_get_set;
          destruct (r =? r0) eqn:E; try apply Q1;
          apply Nat.eqb_eq in E; subst r; intros [= <-]; eauto.
      - rewrite (visit_new w _ d0 v0 _ G). simpl. rewrite Map_get_set.
        destruct (r =? r0) eqn:E; [|apply Q1].
        apply Nat.eqb_eq in E; subst r; intros [= <-]; eauto. }
    destruct (visit w (caches0, d0, v0) r0) as [[caches1 d1] v1].
    apply IH. exact Q2. }
  specialize (It (store w c) caches noDiff (consumeTag (TagArr c) v) Q0).
  match goal with
  | |- context [iterate ?l ?f ?s0] =>
      destruct (iterate l f s0) as [[caches1 d1] v2]
  end.
  simpl in It. rewrite untrack_sweep. simpl.
  intros r rc. rewrite Map_get_deleteAll.
  destruct (Set_has r _); [discriminate | apply It].
Qed.
End CountFacts.

(** ** Worlds that grew out of one another *)

Definition mutations (ms : list Mutation) (w : World) : World :=
  fold_left (fun w m => mutate m w) ms w.

(** [w] came out of [w0] by mutations: a tag is as it was or newer than
    everything in [w0], and an array is as it was or its tag is newer. *)
Record Grown (w0 w : World) : Prop := {
  g_revs : forall t, revs w t = revs w0 t \/ clock w0 < revs w t;
  g_bound : forall t, revs w t <= clock w;
  g_clock : clock w0 <= clock w;
  g_store : forall c, store w c = store w0 c \/ clock w0 < revs w (TagArr c)
}.

Lemma mutate_revs (m : Mutation) (w : World) (t : Tag) :
  revs (mutate m w) t = revs w t \/ revs (mutate m w) t = S (clock w).
Proof.
  destruct m as [c r|c r|r]; simpl.
  - destruct (Tag_eq_dec (TagArr c) t); auto.
  - destruct (Set_has r (store w c)); [|auto]. simpl.
    destruct (Tag_eq_dec (TagArr c) t); auto.
  - destruct (Tag_eq_dec (TagProp r) t); auto.
Qed.

Lemma Grown_refl (w : World) : (forall t, revs w t <= clock w) -> Grown w w.
Proof. intros B. constructor; auto. Qed.

Lemma Grown_mutate (w0 w : World) (m : Mutation) :
  Grown w0 w -> Grown w0 (mutate m w).
Proof.
  intros [R B C S].
  destruct (mutate_facts m w B) as (M & B' & C' & St).
  constructor.
  - intros t. destruct (mutate_revs m w t) as [E|E]; rewrite E; [apply R|].
    right. lia.
  - exact B'.
  - lia.
  - intros c. destruct (St c) as [E|E].
    + rewrite E. destruct (S c) as [E0|L]; [auto|].
      right. specialize (M (TagArr c)). lia.
    + right. rewrite E. lia.
Qed.

Lemma Grown_mutations (ms : list Mutation) : forall w0 w,
  Grown w0 w -> Grown w0 (mutations ms w).
Proof.
  unfold mutations. induction ms as [|m ms IH]; intros w0 w G; [exact G|].
  simpl. apply IH, Grown_mutate, G.
Qed.

(** A cache that was valid before is valid afterwards exactly if none of
    its tags changed. *)
Lemma Grown_valid (w0 w : World) (c : Cache) :
  Grown w0 w -> SNAPSHOT c <= clock w0 -> isValid w0 c = true ->
  (isValid w c = true <-> forall t, In t (deps c) -> revs w t = revs w0 t).
Proof.
  intros [R B C S] Sn Val. split.
  - intros Val' t I. destruct (R t) as [E|L]; [exact E|]. exfalso.
    unfold isValid, deps, validateTag in *.
    destruct (TAG c) as [ts|]; [|discriminate].
    apply Nat.leb_le in Val'. pose proof (valueForTag_ge w ts t I). lia.
  - intros E. rewrite (isValid_ext w0 w c E). exact Val.
Qed.

Lemma changed_or_not (w0 w : World) (ts : list Tag) :
  (forall t, In t ts -> revs w t = revs w0 t)
  \/ exists t, In t ts /\ revs w t <> revs w0 t.
Proof.
  induction ts as [|t ts IH]; [left; simpl; tauto|].
  destruct (Nat.eq_dec (revs w t) (revs w0 t)) as [E|Ne].
  - destruct IH as [All|(t' & I & Ne)].
    + left. intros x [<-|I]; auto.
    + right. exists t'. simpl. auto.
  - right. exists t. simpl. auto.
Qed.

Section NetFacts.
Context {H : Hooks}.
Variable c : Coll.

(** What the nodes of a run satisfy beside [RunInv]. *)
Record NodesInv (s : Run) : Prop := {
  n_nodes : forall r rc,
      Map_get r (recordCaches (watcher s)) = Some rc ->
      TAG (cache rc) = Some (wrap_reads r)
      /\ SNAPSHOT (cache rc) <= clock (world s);
  n_valid : isValid (world s) (recordArrayCache (watcher s)) = true ->
      (forall r rc, Map_get r (recordCaches (watcher s)) = Some rc ->
                    isValid (world s) (cache rc) = true)
      /\ (forall r t, In r (store (world s) c) -> In t (wrap_reads r) ->
                      In t (deps (recordArrayCache (watcher s))))
}.

Lemma NodesInv_start contents k : NodesInv (start contents c k).
Proof. constructor; simpl; discriminate. Qed.

Lemma NodesInv_mutation s m :
  RunInv c s -> NodesInv s -> NodesInv (step s (mutation m)).
Proof.
  intros [R N F L B Sn A Sy] [Nn Nv].
  pose proof (Grown_mutate _ _ m (Grown_refl _ B)) as G.
  constructor; simpl.
  - intros r rc Gr. destruct (Nn r rc Gr) as [T S1]. split; [exact T|].
    pose proof (g_clock _ _ G). lia.
  - intros Val.
    assert (Val0 : isValid (world s) (recordArrayCache (watcher s)) = true).
    { apply (isValid_mono _ (mutate m (world s))); [|exact Val].
      intros t. destruct (g_revs _ _ G t) as [E|Lt]; [lia|].
      specialize (B t). lia. }
    pose proof (proj1 (Grown_valid _ _ _ G Sn Val0) Val) as Same.
    destruct (Nv Val0) as [Vn Dn].
    assert (St : store (mutate m (world s)) c = store (world s) c).
    { destruct (g_store _ _ G c) as [E|Lt]; [exact E|]. exfalso.
      unfold isValid in Val0.
      destruct (TAG (recordArrayCache (watcher s))) as [ts|] eqn:T;
        [|discriminate].
      assert (I : In (TagArr c) (deps (recordArrayCache (watcher s)))).
      { unfold deps. rewrite T. apply A. reflexivity. }
      rewrite (Same _ I) in Lt. specialize (B (TagArr c)). lia. }
    split.
    + intros r rc Gr.
      rewrite (isValid_ext (world s) (mutate m (world s))); [eauto|].
      intros t It. apply Same. destruct (Nn r rc Gr) as [T _].
      unfold deps in It. rewrite T in It.
      apply (Dn r t); [|exact It].
      apply (Sy Val0). eapply Map_get_Some_In, Gr.
    + intros r t Ir It. rewrite St in Ir. eauto.
Qed.

Lemma NodesInv_revalidate s :
  RunInv c s -> NodesInv s -> NodesInv (step s revalidate).
Proof.
  intros I J. pose proof I as [R N F L B Sn A Sy]. destruct J as [Nn Nv].
  unfold step.
  destruct (isValid (world s) (recordArrayCache (watcher s))) eqn:Val.
  - rewrite revalidate_memo by exact Val.
    constructor; simpl; [exact Nn | intros _; apply Nv; reflexivity].
  - rewrite revalidate_run by exact Val. cbv zeta. rewrite R.
    pose proof (collect_spec (world s) c (recordCaches (watcher s))
                  (beginTrackFrame idle)) as CS.
    pose proof (collect_nodes (world s)
                  (fun r rc => TAG (cache rc) = Some (wrap_reads r)
                               /\ SNAPSHOT (cache rc) <= clock (world s))
                  c (recordCaches (watcher s)) (beginTrackFrame idle)) as CN.
    assert (Qn : forall r rc,
               Map_get r (fst (fst (collect (world s) c
                                      (recordCaches (watcher s))
                                      (beginTrackFrame idle)))) = Some rc ->
               TAG (cache rc) = Some (wrap_reads r)
               /\ SNAPSHOT (cache rc) <= clock (world s)).
    { apply CN; [|exact Nn].
      intros r. simpl. split; [reflexivity|]. apply valueForTag_le, B. }
    destruct (collect (world s) c (recordCaches (watcher s))
                (beginTrackFrame idle)) as [[caches2 d2] v3].
    simpl in CS, Qn |- *.
    constructor; simpl; [exact Qn|]. intros _. split.
    + apply (cs_valid _ _ _ _ CS).
    + intros r t Ir It. unfold arrayDeps. right.
      apply in_flat_map. exists r. split; [exact Ir|].
      apply (cs_keys _ _ _ _ CS) in Ir. simpl in Ir.
      destruct (In_keys_get _ _ _ Ir) as [rc Gr].
      unfold nodeDeps. rewrite Gr. destruct (Qn r rc Gr) as [T _].
      unfold deps. rewrite T. exact It.
Qed.

Lemma NodesInv_run steps : forall s,
  RunInv c s -> NodesInv s -> NodesInv (run steps s).
Proof.
  unfold run. induction steps as [|a steps IH]; intros s I J; [exact J|].
  simpl. destruct a.
  - apply IH; [apply RunInv_mutation | apply NodesInv_mutation]; assumption.
  - apply IH; [apply RunInv_revalidate | apply NodesInv_revalidate];
      assumption.
Qed.
End NetFacts.

Lemma step_revalidate_valid {H : Hooks} (s : Run) :
  isValid (world (step s revalidate))
          (recordArrayCache (watcher (step s revalidate))) = true.
Proof.
  pose proof (revalidate_valid (world s) (watcher s)) as V. unfold step.
  destruct (RecordsWatcher_revalidate (world s) (watcher s)). exact V.
Qed.

(** What the revalidation at the end of a batch reports is the net change
    since the previous revalidation, whatever happened in between: a record is
    reported added exactly if it is in the array now and was not then,
    removed exactly if it was in the array then and is not now, and updated
    exactly if it was and is in the array and a tag that wrapping it reads has
    changed; and it is mentioned once at most, in one list only. A record
    that was added and removed again within the batch is not mentioned. *)
Theorem net_change {H : Hooks} (contents : Coll -> list RecordId) (c : Coll)
    (k : Caller) (steps : list Step) (ms : list Mutation) (r : RecordId) :
  let s := run (steps ++ [revalidate]) (start contents c k) in
  let w := world s in
  let w' := mutations ms w in
  let out := snd (RecordsWatcher_revalidate w' (watcher s)) in
  (0 < times Added (reports r out)
   <-> In r (store w' c) /\ ~ In r (store w c))
  /\ (0 < times Removed (reports r out)
      <-> In r (store w c) /\ ~ In r (store w' c))
  /\ (0 < times Updated (reports r out)
      <-> In r (store w c) /\ In r (store w' c)
          /\ exists t, In t (wrap_reads r) /\ revs w' t <> revs w t)
  /\ times Added (reports r out) + times Updated (reports r out)
     + times Removed (reports r out) <= 1.
Proof.
  cbv zeta. rewrite run_app.
  set (s0 := run steps (start contents c k)).
  change (run [revalidate] s0) with (step s0 revalidate).
  pose proof (RunInv_run c steps _ (RunInv_start c contents k)) as I0.
  pose proof (NodesInv_run c steps _ (RunInv_start c contents k)
                (NodesInv_start c contents k)) as J0.
  fold s0 in I0, J0.
  pose proof (RunInv_revalidate c s0 I0) as I.
  pose proof (NodesInv_revalidate c s0 I0 J0) as J.
  pose proof (step_revalidate_valid s0) as Val.
  set (s := step s0 revalidate) in *.
  destruct I as [R N F L B Sn A Sy]. destruct J as [Nn Nv].
  specialize (Sy Val). destruct (Nv Val) as [Vn Dn].
  pose proof (Grown_mutations ms _ _ (Grown_refl _ B)) as G.
  set (w' := mutations ms (world s)) in *.
  rewrite revalidate_out.
  destruct (isValid w' (recordArrayCache (watcher s))) eqn:Val'.
  - (* nothing the array computation depends on has changed *)
    pose proof (proj1 (Grown_valid _ _ _ G Sn Val) Val') as Same.
    assert (Ia : In (TagArr c) (deps (recordArrayCache (watcher s)))).
    { unfold isValid in Val. unfold deps.
      destruct (TAG (recordArrayCache (watcher s))) as [ts|] eqn:T;
        [apply A; reflexivity | discriminate]. }
    assert (St : store w' c = store (world s) c).
    { destruct (g_store _ _ G c) as [E|Lt]; [exact E|]. exfalso.
      rewrite (Same _ Ia) in Lt. specialize (B (TagArr c)). lia. }
    unfold times, reports. simpl. rewrite St.
    repeat split; try lia; try tauto.
    intros (Ir & _ & t & It & Ne). exfalso. apply Ne, Same. eauto.
  - (* the array computation runs *)
    destruct (times_dispatch r (rw_callbacks (watcher s)) (diffOf w' (watcher s)))
      as (-> & -> & ->).
    unfold diffOf. rewrite Val', R.
    pose proof (collect_spec w' c (recordCaches (watcher s))
                  (beginTrackFrame idle)) as CS.
    destruct (collect_counts w' c (recordCaches (watcher s))
                (beginTrackFrame idle) r) as (Ca & Cu).
    pose proof (cs_removed _ _ _ _ CS r) as Cr.
    pose proof (cs_removed_once _ _ _ _ CS N r) as Cr1.
    cbv zeta in Ca, Cu.
    set (d := snd (fst (collect w' c (recordCaches (watcher s))
                          (beginTrackFrame idle)))) in *.
    assert (Node : forall rc, Map_get r (recordCaches (watcher s)) = Some rc ->
                     (isValid w' (cache rc) = false
                      <-> exists t, In t (wrap_reads r)
                                    /\ revs w' t <> revs (world s) t)).
    { intros rc Gr. destruct (Nn r rc Gr) as [T S1].
      pose proof (Grown_valid _ _ (cache rc) G S1 (Vn r rc Gr)) as GV.
      unfold deps in GV. rewrite T in GV. split.
      - intros Stale.
        destruct (changed_or_not (world s) w' (wrap_reads r)) as [All|Ex];
          [|exact Ex].
        apply GV in All. congruence.
      - intros (t & It & Ne).
        destruct (isValid w' (cache rc)) eqn:V; [|reflexivity].
        exfalso. apply Ne. apply (proj1 GV eq_refl). exact It. }
    rewrite Ca, Cu. unfold pushesAdded, pushesUpdated.
    destruct (Set_has r (store w' c)) eqn:Now.
    + apply Set_has_In in Now.
      assert (Zr : cnt r (removed d) = 0).
      { destruct (cnt r (removed d)) eqn:E; [reflexivity|].
        destruct (proj1 Cr); [lia | contradiction]. }
      rewrite Zr.
      destruct (Map_get r (recordCaches (watcher s))) as [rc|] eqn:Gr.
      * pose proof (Map_get_Some_In _ _ _ _ Gr) as Ik. apply Sy in Ik.
        rewrite (F r rc Gr). specialize (Node rc eq_refl).
        destruct (isValid w' (cache rc)).
        -- split; [|split; [|split]]; try lia.
           ++ split; [lia | tauto].
           ++ split; [lia | tauto].
           ++ split; [lia|]. intros (_ & _ & Ex). apply Node in Ex.
              discriminate.
        -- split; [|split; [|split]]; try lia.
           ++ split; [lia | tauto].
           ++ split; [lia | tauto].
           ++ split; [|lia]. intros _. split; [exact Ik|].
              split; [exact Now|]. apply Node. reflexivity.
      * apply Map_get_None in Gr. rewrite Sy in Gr.
        split; [|split; [|split]]; try lia.
        -- split; [tauto | lia].
        -- split; [lia | tauto].
        -- split; [lia | tauto].
    + apply Set_has_false in Now.
      split; [|split; [|split]]; try lia.
      * split; [lia | tauto].
      * simpl. rewrite Cr, Sy. tauto.
      * split; [lia | tauto].
Qed.

(** * A TypeWatcher between two batches *)

(** A TypeWatcher created by [observeModelType] that has just run calls
    [typesUpdated] at the next revalidation exactly if the tag of its array
    has changed in between, once, with the number of records the array holds
    then; every change of the array's contents changes the tag. *)
Theorem typeWatcher_net {H : Hooks} (w : World) (ms : list Mutation)
    (tw : TypeWatcher) :
  (forall t, revs w t <= clock w) ->
  isValid w (tw_cache tw) = false ->
  tw_records tw = getRecords (tw_modelName tw) ->
  let c := tw_records tw in
  let w' := mutations ms w in
  snd (TypeWatcher_revalidate w' (fst (TypeWatcher_revalidate w tw)))
  = (if revs w' (TagArr c) =? revs w (TagArr c) then []
     else [typesUpdated (tw_callbacks tw)
             [{| name := tw_modelName tw; count := length (store w' c) |}]])
  /\ (store w' c <> store w c -> revs w' (TagArr c) <> revs w (TagArr c)).
Proof.
  intros B Val Ec. cbv zeta.
  pose proof (Grown_mutations ms _ _ (Grown_refl _ B)) as G.
  set (w' := mutations ms w) in *. split.
  - pose proof (tw_revalidate_valid w tw) as V1.
    rewrite (tw_revalidate_run w tw Val) in V1 |- *. cbv zeta in V1 |- *.
    simpl fst in V1 |- *. rewrite <- Ec in V1 |- *.
    set (tags := if hasBeenAccessed tw
                 then [TagArr (tw_records tw); TagArr (tw_records tw)]
                 else [TagArr (tw_records tw)]) in *.
    set (tw1 := {| tw_records := tw_records tw;
                   tw_callbacks := tw_callbacks tw;
                   tw_modelName := tw_modelName tw;
                   hasBeenAccessed := true;
                   tw_cache := {| TAG := Some tags;
                                  SNAPSHOT := valueForTag w tags |};
                   tw_release := tw_release tw |}) in *.
    assert (Sn : SNAPSHOT (tw_cache tw1) <= clock w)
      by (apply valueForTag_le, B).
    pose proof (Grown_valid _ _ (tw_cache tw1) G Sn V1) as GV.
    destruct (revs w' (TagArr (tw_records tw))
              =? revs w (TagArr (tw_records tw))) eqn:E.
    + apply Nat.eqb_eq in E. rewrite tw_revalidate_memo; [reflexivity|].
      apply GV. simpl. unfold tags.
      destruct (hasBeenAccessed tw); intros t I; simpl in I;
        intuition (subst; auto).
    + apply Nat.eqb_neq in E. rewrite (tw_revalidate_run w' tw1).
      * simpl. rewrite <- Ec. reflexivity.
      * destruct (isValid w' (tw_cache tw1)) eqn:V'; [|reflexivity].
        exfalso. apply E. apply (proj1 GV eq_refl). simpl. unfold tags.
        destruct (hasBeenAccessed tw); simpl; auto.
  - intros Ne E. destruct (g_store _ _ G (tw_records tw)) as [Es|Lt];
      [contradiction|].
    specialize (B (TagArr (tw_records tw))). lia.
Qed.

Lemma typeWatcher_net_witness :
  let tw := @new_TypeWatcher 0 5 0 (releaseType 0 0) in
  let w' := mutations [pushObject 0 3; removeObject 0 3] sampleWorld in
  store w' 0 = store sampleWorld 0
  /\ snd (@TypeWatcher_revalidate sampleHooks w'
            (fst (@TypeWatcher_revalidate sampleHooks sampleWorld tw)))
     = [typesUpdated 5 [{| name := 0; count := 2 |}]].
Proof.
  cbv zeta. split; [reflexivity|].
  destruct (@typeWatcher_net sampleHooks sampleWorld
              [pushObject 0 3; removeObject 0 3]
              (@new_TypeWatcher 0 5 0 (releaseType 0 0))) as [E _].
  - intros t. simpl. lia.
  - reflexivity.
  - reflexivity.
  - rewrite E. reflexivity.
Defined.

(** * The subscription when only records are watched *)

Section TidyFacts.
Context {H : Hooks}.
Variable policy : OffPolicy.

(** The debugging tool watches records only and calls a release function
    only while the watcher it belongs to is registered. *)
Definition tidy_action (a : DataAdapter) (x : Action) : Prop :=
  match x with
  | doWatchRecords _ _ | doMutate _ | doEnd => True
  | doRelease (releaseRecords _ c) => In c (Map_keys (recordsWatchers a))
  | _ => False
  end.

Fixpoint tidy (xs : list Action) (s : System) : Prop :=
  match xs with
  | [] => True
  | x :: xs' => tidy_action (sys_adapter s) x /\ tidy xs' (act policy s x)
  end.

Record TidyInv (a : DataAdapter) : Prop := {
  ti_types : typeWatchers a = [];
  ti_nodup : NoDup (Map_keys (recordsWatchers a));
  ti_listeners : listeners a
                 = if Map_size (recordsWatchers a) =? 0 then 0 else 1
}.

Lemma TidyInv_act s x :
  TidyInv (sys_adapter s) -> tidy_action (sys_adapter s) x ->
  TidyInv (sys_adapter (act policy s x)).
Proof.
  intros [T N L] Ok. destruct x as [k|n k|f|t|m| |]; simpl in Ok |- *;
    try contradiction.
  - (* watchRecords *)
    unfold watchRecords.
    destruct (Map_get (getRecords n) (recordsWatchers (sys_adapter s)));
      [constructor; assumption|].
    destruct (RecordsWatcher_revalidate _ _) as [rw' out].
    assert (Ne : forall m : JSMap RecordsWatcher,
               (Map_size (Map_set (getRecords n) rw' m) =? 0) = false).
    { intros [|[k0 x0] m]; simpl; [reflexivity|].
      destruct (getRecords n =? k0); reflexivity. }
    destruct (Map_size (recordsWatchers (sys_adapter s)) =? 0) eqn:E;
      constructor; simpl; rewrite ?Ne; auto using NoDup_keys_set.
  - (* a release function of a registered watcher *)
    destruct f as [id c|id c]; [|contradiction].
    pose proof (Map_size_delete _ c _ N Ok) as Sz.
    unfold call_release. rewrite try_release_records.
    destruct (Map_size (recordsWatchers (sys_adapter s)) =? 1) eqn:E.
    + apply Nat.eqb_eq in E. rewrite E in Sz, L. injection Sz as Sz.
      simpl in L. rewrite L.
      assert (Off : backburner_off policy 1 = Some 0)
        by (destruct policy; reflexivity).
      rewrite Off. constructor; simpl; auto.
      * rewrite Map_keys_delete. apply NoDup_filter, N.
      * rewrite Sz. reflexivity.
    + constructor; simpl; auto.
      * rewrite Map_keys_delete. apply NoDup_filter, N.
      * apply Nat.eqb_neq in E. rewrite L.
        destruct (Map_size (recordsWatchers (sys_adapter s))) as [|[|n]];
          try discriminate; try contradiction.
        injection Sz as Sz. rewrite Sz. reflexivity.
  - (* a mutation *)
    constructor; assumption.
  - (* the end of a batch *)
    rewrite fire_end_eq. destruct (listeners (sys_adapter s) =? 0);
      [constructor; assumption|].
    destruct (flushWatchers_keeps (sys_world s) (sys_adapter s))
      as (Kr & Kt & Li & _).
    constructor.
    + rewrite T in Kt. simpl in Kt.
      destruct (typeWatchers (flushWatchers (sys_world s) (sys_adapter s)));
        [reflexivity | discriminate].
    + rewrite Kr. exact N.
    + rewrite Li, L. unfold Map_size, Map_keys in *.
      rewrite <- (length_map fst (recordsWatchers (flushWatchers _ _))), Kr,
        length_map. reflexivity.
Qed.

Lemma TidyInv_play xs : forall s,
  TidyInv (sys_adapter s) -> tidy xs s ->
  TidyInv (sys_adapter (play policy xs s)).
Proof.
  unfold play. induction xs as [|x xs IH]; intros s I Ok; [exact I|].
  destruct Ok as [Ok1 Ok2]. simpl. apply IH; [|exact Ok2].
  apply TidyInv_act; assumption.
Qed.
End TidyFacts.

(** While only records are watched and every release function is called
    only while its array has a watcher, the subscription is active exactly
    while some watcher is registered, and [flushWatchers] is registered once
    at most; this is so whether [off] withdraws one registration or all. *)
Theorem subscription_while_tidy {H : Hooks} (policy : OffPolicy)
    (contents : Coll -> list RecordId) (xs : list Action) :
  tidy policy xs (boot contents) ->
  let a := sys_adapter (play policy xs (boot contents)) in
  subscribed a = watching a /\ listeners a <= 1.
Proof.
  intros Ok. cbv zeta.
  destruct (TidyInv_play policy xs (boot contents)) as [T N L];
    [constructor; simpl; auto; constructor | exact Ok |].
  unfold subscribed, watching. rewrite T, L. simpl.
  destruct (Map_size (recordsWatchers _)); simpl; auto.
Qed.

Lemma subscription_while_tidy_witness :
  let xs := [doWatchRecords 0 7; doWatchRecords 1 8;
             doRelease (releaseRecords 0 0); doMutate (pushObject 1 4);
             doEnd] in
  let a := sys_adapter (@play sampleHooks OffAll xs (boot sampleContents)) in
  Map_keys (recordsWatchers a) = [1] /\ subscribed a = watching a.
Proof.
  cbv zeta. split; [reflexivity|].
  apply (@subscription_while_tidy sampleHooks OffAll sampleContents).
  simpl. repeat split; auto.
Defined.

(** * The model types of an application *)

Module Catalog.
Section Catalog.

(** The values a namespace can hold and a factory can produce, the keys of
    namespaces and the names of model types. *)
Variables Obj Key Name : Type.

(** What the host supplies: [detect], applied to a class or to [undefined]
    ([None]); [factoryFor n], the class of the factory the owner has under
    the model name [n], [None] when the factory or its class is missing; the
    container debug adapter's catalog of models; the namespaces, each with
    the keys a [for...in] loop meets, whether the key is an own property, and
    the value under it; and [dasherize]. *)
Variable detect : option Obj -> bool.
Variable factoryFor : Name -> option Obj.
Variable canCatalogEntriesByType : bool.
Variable NAMESPACES : list (list (Key * bool * Obj)).
Variable dasherize : Key -> Name.

(** An entry of the catalog: a model name, or the class itself as older
    adapters list it. *)
Inductive Entry : Type :=
| ByName (n : Name)
| ByClass (o : Obj).

Variable catalogEntriesByType : list Entry.

Record ModelType : Type := { klass : option Obj; name : Entry }.

(* lines 286-293 *)
Definition _nameToClass (type : Entry) : option Obj :=
  match type with
  | ByName n => factoryFor n
  | ByClass o => Some o
  end.

(* lines 509-528 *)
Definition _getObjectsOnNamespaces : list Entry :=
  flat_map
    (fun namespace =>
       flat_map
         (fun (p : Key * bool * Obj) =>
            let '(key, own, value) := p in
            if negb own then []
            else if negb (detect (Some value)) then []
            else [ByName (dasherize key)])
         namespace)
    NAMESPACES.

(* lines 479-499 *)
Definition getModelTypes : list ModelType :=
  let types := if canCatalogEntriesByType then catalogEntriesByType
               else _getObjectsOnNamespaces in
  let types := map (fun name => {| klass := _nameToClass name; name := name |})
                   types in
  filter (fun type => detect (klass type)) types.

Lemma scanned (e : Entry) :
  In e _getObjectsOnNamespaces <->
  exists namespace key value,
    In namespace NAMESPACES /\ In (key, true, value) namespace
    /\ detect (Some value) = true /\ e = ByName (dasherize key).
Proof.
  unfold _getObjectsOnNamespaces. rewrite in_flat_map. split.
  - intros (ns & Ins & I). apply in_flat_map in I.
    destruct I as ([[key own] value] & Ip & Ie).
    destruct own; simpl in Ie; [|contradiction].
    destruct (detect (Some value)) eqn:D; simpl in Ie; [|contradiction].
    destruct Ie as [<-|[]]. exists ns, key, value. auto.
  - intros (ns & key & value & Ins & Ip & D & ->).
    exists ns. split; [exact Ins|]. apply in_flat_map.
    exists (key, true, value). split; [exact Ip|]. simpl. rewrite D.
    simpl. auto.
Qed.

(** [getModelTypes] returns only types whose class [detect] accepts, each
    with the class its name resolves to, in the order of the catalog. With a
    catalog, these are the catalogued entries whose class is accepted. Without
    one, they are the dasherized own keys of the namespaces whose value is
    accepted and whose registered factory class is accepted as well: a key
    with an accepted value but no accepted factory is left out. With a
    [detect] that accepts nothing there are no model types. *)
Theorem getModelTypes_detected :
  (forall type, In type getModelTypes ->
                detect (klass type) = true
                /\ klass type = _nameToClass (name type))
  /\ map name getModelTypes
     = filter (fun e => detect (_nameToClass e))
              (if canCatalogEntriesByType then catalogEntriesByType
               else _getObjectsOnNamespaces)
  /\ (canCatalogEntriesByType = false ->
      forall e, In e (map name getModelTypes) <->
        exists namespace key value,
          In namespace NAMESPACES /\ In (key, true, value) namespace
          /\ detect (Some value) = true
          /\ detect (factoryFor (dasherize key)) = true
          /\ e = ByName (dasherize key))
  /\ ((forall o, detect o = false) -> getModelTypes = []).
Proof.
  unfold getModelTypes. cbv zeta.
  set (types := if canCatalogEntriesByType then catalogEntriesByType
                else _getObjectsOnNamespaces).
  assert (Names : map name
                    (filter (fun type => detect (klass type))
                       (map (fun n => {| klass := _nameToClass n; name := n |})
                            types))
                  = filter (fun e => detect (_nameToClass e)) types).
  { induction types as [|e l IH]; simpl; [reflexivity|].
    destruct (detect (_nameToClass e)); simpl; rewrite IH; reflexivity. }
  split; [|split; [|split]].
  - intros type I. apply filter_In in I. destruct I as [I D].
    apply in_map_iff in I. destruct I as (e & <- & _). auto.
  - exact Names.
  - intros No e. rewrite Names. unfold types. rewrite No, filter_In, scanned.
    split.
    + intros [(ns & key & value & Ins & Ip & D & ->) Df]. simpl in Df.
      exists ns, key, value. auto.
    + intros (ns & key & value & Ins & Ip & D & Df & ->). split; [|exact Df].
      exists ns, key, value. auto.
  - intros None. apply filter_none. intros type _. apply None.
Qed.
End Catalog.
End Catalog.
